(** * dircache: a shallow embedding of [src/dircache.cpp]

    The source file holds two variants of the cache.  The model follows
    the second, reference-counted one (the one built on [dirent_t],
    [dircontext_t] and the read/write lock): the process-wide map
    [dir_db], the heap of snapshots ([dirent_t] objects created with
    [new]), the heap of handles ([dircontext_t] objects) and the
    POSIX-style entry points layered on them.

    Conventions.
    - [size_t] and [long] are 64 bits wide (LP64); a value of either type
      is a [Z] and every conversion writes its wrap-around out.
    - A C pointer to a heap object is the address of the object in the
      typed heap of the state; the null pointer is [None].
    - One calling thread is modelled.  [db_lock] is the mode in which that
      thread holds the store lock, and [trace] records, in program order,
      each access to the map together with the mode held at that moment and
      each call of the storage primitives.
    - A record is a value.  Where the source copies a [struct dirent] out
      of a block that [scandir(3)] allocated, the model copies the record;
      the extent of the block, which [scandir(3)] sizes by [d_reclen], is
      not modelled, so the model does not tell whether such a copy reads
      past the block.  For the entry points of the second variant,
      undefined behaviour in the model ([None]) is the use of a pointer to
      an object that is not allocated, and a second acquisition of the
      lock by the thread that holds it. *)

From Stdlib Require Import ZArith String Ascii QArith Lia.
From stdpp Require Import gmap strings list fin_maps sorting.
Local Open Scope Z_scope.

(** ** Machine integers *)

Definition SIZE_MAX_plus_1 : Z := 2 ^ 64.
Definition PTRDIFF_MAX : Z := 2 ^ 63 - 1.
Definition UINT32_modulus : Z := 2 ^ 32.

(** Conversion of an integer value to [size_t]. *)
Definition to_size_t (z : Z) : Z := z mod SIZE_MAX_plus_1.

(** Conversion of a [size_t] value to [long]. *)
Definition to_long (z : Z) : Z :=
  if z <=? PTRDIFF_MAX then z else z - SIZE_MAX_plus_1.

(** The values a [long] argument can take. *)
Definition long_range (z : Z) : Prop := - 2 ^ 63 <= z <= PTRDIFF_MAX.

(** ** Directory records *)

(** [struct dirent]: the inode number, the type tag and the name.  [d_name]
    holds the characters of the NUL-terminated name; the terminator itself
    is not part of the string. *)
Record dirent : Type := mk_dirent {
  d_ino : Z;
  d_type : Z;
  d_name : string
}.

Definition uchar (c : ascii) : Z := Z.of_N (N_of_ascii c).

(** [strcmp(3)]: the strings are compared byte by byte as unsigned
    characters; the result is the difference of the first pair of bytes
    that differ, and the comparison stops at a terminator.  Past its last
    character a string reads as the terminator [0]. *)
Fixpoint strcmp (s1 s2 : string) : Z :=
  match s1, s2 with
  | EmptyString, EmptyString => 0
  | EmptyString, String c2 _ => 0 - uchar c2
  | String c1 _, EmptyString => uchar c1 - 0
  | String c1 r1, String c2 r2 =>
      if uchar c1 =? uchar c2
      then (if uchar c1 =? 0 then 0 else strcmp r1 r2)
      else uchar c1 - uchar c2
  end.

(** ** The C library: [qsort] *)

(** The relation a C comparator induces: [a] may precede [b]. *)
Definition cmp_le {A : Type} (cmp : A → A → Z) (a b : A) : Prop := cmp a b <= 0.

(** A comparator that [qsort] can be used with: any two elements are
    comparable and the induced relation is transitive. *)
Definition cmp_consistent {A : Type} (cmp : A → A → Z) : Prop :=
  (∀ a b, cmp_le cmp a b ∨ cmp_le cmp b a) ∧
  (∀ a b c, cmp_le cmp a b → cmp_le cmp b c → cmp_le cmp a c).

(** [qsort(3)] is specified by its result only: the array is rearranged,
    and with a consistent comparator it ends up in ascending order.  The
    algorithm (and so the order of elements that compare equal) is left to
    the library. *)
Class Libc : Type := {
  qsort : ∀ {A : Type}, (A → A → Z) → list A → list A;
  qsort_Permutation : ∀ {A : Type} (cmp : A → A → Z) (l : list A),
    qsort cmp l ≡ₚ l;
  qsort_sorted : ∀ {A : Type} (cmp : A → A → Z) (l : list A),
    cmp_consistent cmp → StronglySorted (cmp_le cmp) (qsort cmp l)
}.

(** ** The storage namespace *)

(** What the calling thread observes of the file system and of the clock
    during one call: whether [opendir(3)] succeeds on a path, the entries
    a scan of the path yields (in the order storage yields them; [None]
    when the scan fails) and the reading of the monotonic clock. *)
Record World : Type := mk_World {
  w_opendir : string → bool;
  w_list : string → option (list dirent);
  w_tv_sec : Z;
  w_tv_nsec : Z
}.

(** ** Struct declarations *)

Definition addr : Type := nat.

(** [struct dirent_t]: a snapshot. *)
Record dirent_t : Type := mk_dirent_t {
  entries : list dirent;
  nref : Z;
  addedat : Q
}.

(** [struct dircontext_t]: a handle. *)
Record dircontext_t : Type := mk_dircontext_t {
  pos : Z;
  ent : addr
}.

(** [entries.size()].  A vector holds at most [PTRDIFF_MAX] elements; the
    properties that depend on this bound state it as a hypothesis. *)
Definition vec_size {A : Type} (l : list A) : Z := Z.of_nat (length l).

(** A pointer to an element of a snapshot's [entries] vector:
    [&dent->entries[i]]. *)
Record dirent_ptr : Type := mk_ptr {
  p_ent : addr;
  p_idx : Z
}.

(** ** The state of the process *)

Inductive lockmode : Type := Unlocked | ReadLocked | WriteLocked.

Inductive event : Type :=
| EvFind (path : string) (held : lockmode)
| EvInsert (path : string) (held : lockmode)
| EvClear (held : lockmode)
| EvOpendir (path : string)
| EvScandir (path : string).

Record State : Type := mk_State {
  dir_db : gmap string addr;
  db_lock : lockmode;
  ents : gmap addr dirent_t;
  ctxs : gmap addr dircontext_t;
  trace : list event
}.

Definition init_State : State :=
  {| dir_db := ∅; db_lock := Unlocked; ents := ∅; ctxs := ∅; trace := [] |}.

Definition set_dir_db (f : gmap string addr → gmap string addr) (st : State) : State :=
  {| dir_db := f (dir_db st); db_lock := db_lock st; ents := ents st;
     ctxs := ctxs st; trace := trace st |}.
Definition set_db_lock (m : lockmode) (st : State) : State :=
  {| dir_db := dir_db st; db_lock := m; ents := ents st;
     ctxs := ctxs st; trace := trace st |}.
Definition set_ents (f : gmap addr dirent_t → gmap addr dirent_t) (st : State) : State :=
  {| dir_db := dir_db st; db_lock := db_lock st; ents := f (ents st);
     ctxs := ctxs st; trace := trace st |}.
Definition set_ctxs (f : gmap addr dircontext_t → gmap addr dircontext_t) (st : State) : State :=
  {| dir_db := dir_db st; db_lock := db_lock st; ents := ents st;
     ctxs := f (ctxs st); trace := trace st |}.
Definition emit (e : event) (st : State) : State :=
  {| dir_db := dir_db st; db_lock := db_lock st; ents := ents st;
     ctxs := ctxs st; trace := trace st ++ [e] |}.

(** ** The monad of the embedding

    A computation takes the state and either returns a value with the new
    state, or has no defined behaviour ([None]): it dereferences a pointer
    to an object that is not allocated, or it blocks for ever on a lock
    the calling thread already holds. *)

Definition M (A : Type) : Type := State → option (A * State).

Definition ret {A : Type} (a : A) : M A := λ st, Some (a, st).
Definition bind {A B : Type} (m : M A) (k : A → M B) : M B :=
  λ st, match m st with
        | Some (a, st') => k a st'
        | None => None
        end.
Definition modify (f : State → State) : M unit := λ st, Some (tt, f st).

Notation "'do' x <- m ; k" := (bind m (λ x, k))
  (at level 10, x name, m at level 100, k at level 200).
Notation "m ;; k" := (bind m (λ _, k))
  (at level 100, k at level 200, right associativity).

(** [*ctx]: reading through a handle pointer. *)
Definition load_ctx (h : addr) : M dircontext_t :=
  λ st, match ctxs st !! h with Some c => Some (c, st) | None => None end.

(** [*dent]: reading through a snapshot pointer. *)
Definition load_ent (a : addr) : M dirent_t :=
  λ st, match ents st !! a with Some e => Some (e, st) | None => None end.

(** [new dircontext_t] / [new dirent_t]: an address that is not in use. *)
Definition new_ctx (c : dircontext_t) : M addr :=
  λ st, let h := fresh (dom (ctxs st)) in Some (h, set_ctxs <[h := c]> st).
Definition new_ent (e : dirent_t) : M addr :=
  λ st, let a := fresh (dom (ents st)) in Some (a, set_ents <[a := e]> st).

(** ** Storage primitives and the store lock *)

Section Dircache.
Context `{L : Libc}.

(** [opendir(3)]: only the success of the call is observed; the stream it
    returns is never read from nor closed by the cache. *)
Definition opendir (w : World) (path : string) : M bool :=
  modify (emit (EvOpendir path)) ;; ret (w_opendir w path).

(** [scandir(3)]: the entries of the directory for which [filter] returns
    non-zero (all of them when [filter] is null), sorted with [qsort] by
    [compar] (left as they come when [compar] is null).  [None] stands for
    the return value [-1]; otherwise the return value is the length of the
    list. *)
Definition scandir (w : World) (path : string)
    (filter : option (dirent → Z)) (compar : option (dirent → dirent → Z))
    : M (option (list dirent)) :=
  modify (emit (EvScandir path)) ;;
  match w_list w path with
  | None => ret None
  | Some raw =>
      let kept := match filter with
                  | Some f => base.filter (λ d, f d ≠ 0) raw
                  | None => raw
                  end in
      ret (Some (match compar with
                 | Some c => qsort c kept
                 | None => kept
                 end))
  end.

(** [ReadWriteLock::write_lock] and [ReadWriteLock::unlock] on
    [dir_db_lock()]. *)
Definition write_lock : M unit :=
  λ st, match db_lock st with
        | Unlocked => Some (tt, set_db_lock WriteLocked st)
        | _ => None
        end.
Definition unlock : M unit := modify (set_db_lock Unlocked).

(** [dir_db().find(path)], [dir_db().insert({path, dent})] (which keeps an
    existing mapping) and [dir_db().clear()]. *)
Definition db_find (path : string) : M (option addr) :=
  λ st, Some (dir_db st !! path, emit (EvFind path (db_lock st)) st).
Definition db_insert (path : string) (dent : addr) : M unit :=
  λ st, Some (tt, emit (EvInsert path (db_lock st))
                    (set_dir_db (λ db, match db !! path with
                                       | Some _ => db
                                       | None => <[path := dent]> db
                                       end) st)).
Definition db_clear : M unit :=
  λ st, Some (tt, emit (EvClear (db_lock st)) (set_dir_db (λ _, ∅) st)).

(** [nref.fetch_add(1)], [nref.fetch_sub(1)] on the 32-bit counter. *)
Definition nref_fetch_add (a : addr) (d : Z) : M unit :=
  do e <- load_ent a;
  modify (set_ents <[a := {| entries := entries e;
                             nref := (nref e + d) mod UINT32_modulus;
                             addedat := addedat e |}]>).

(** ** Private helpers *)

Definition dc_build_around_ent (dent : addr) : M addr :=
  do ctx <- new_ctx {| pos := 0; ent := dent |};
  nref_fetch_add dent 1 ;;
  ret ctx.

(** Time in ms: [tv_sec * 1e3 + tv_nsec / 1e6], as an exact rational in
    place of the [double]. *)
Definition dc_get_time (w : World) : Q :=
  (inject_Z (w_tv_sec w) * 1000 + inject_Z (w_tv_nsec w) / 1000000)%Q.

(** The loop [entries.push_back] of [*namelist[i]] copies the records of
    the scan, in the order [scandir(3)] gave them, into the new snapshot;
    only the values copied are modelled, not the size of the blocks they
    are read from. *)
Definition dc_find_or_populate (w : World) (path : string) : M (option addr) :=
  do found <- db_find path;
  match found with
  | Some dent => do ctx <- dc_build_around_ent dent; ret (Some ctx)
  | None =>
      do d <- opendir w path;
      if negb d then ret None else
      do r <- scandir w path (Some (λ _, 1))
                (Some (λ a b, strcmp (d_name a) (d_name b)));
      match r with
      | None => ret None
      | Some namelist =>
          do dent <- new_ent {| entries := namelist; nref := 0;
                                addedat := dc_get_time w |};
          write_lock ;;
          db_insert path dent ;;
          unlock ;;
          do ctx <- dc_build_around_ent dent;
          ret (Some ctx)
      end
  end.

Definition dc_close (context : addr) : M unit :=
  do c <- load_ctx context;
  nref_fetch_add (ent c) (-1) ;;
  modify (set_ctxs (delete context)).

(** ** Public implementation *)

Definition dircache_invalidate : M unit :=
  write_lock ;; db_clear ;; unlock.

(** The result is the pointer [&dir->ent->entries[pos]], or null. *)
Definition dircache_readdir (dir : addr) : M (option dirent_ptr) :=
  do c <- load_ctx dir;
  do e <- load_ent (ent c);
  if pos c >=? vec_size (entries e) then ret None else
  modify (set_ctxs <[dir := {| pos := to_size_t (pos c + 1); ent := ent c |}]>) ;;
  ret (Some {| p_ent := ent c; p_idx := pos c |}).

Definition dircache_opendir (w : World) (path : string) : M (option addr) :=
  dc_find_or_populate w path.

Definition dircache_rewinddir (dir : addr) : M unit :=
  do c <- load_ctx dir;
  modify (set_ctxs <[dir := {| pos := 0; ent := ent c |}]>).

Definition dircache_telldir (dir : addr) : M Z :=
  do c <- load_ctx dir;
  ret (to_long (pos c)).

Definition dircache_seekdir (dir : addr) (loc : Z) : M unit :=
  do c <- load_ctx dir;
  do e <- load_ent (ent c);
  if to_size_t loc >=? vec_size (entries e) then ret tt else
  modify (set_ctxs <[dir := {| pos := to_size_t loc; ent := ent c |}]>).

Definition dircache_closedir (dir : addr) : M unit := dc_close dir.

(** The loop of [dircache_scandir] over [ctx->ent->entries]: the element
    at index [i] is skipped when [filter] is set and returns non-zero on
    it, and its address is stored in the list otherwise. *)
Fixpoint accumulate (filter : option (dirent → Z)) (a : addr) (i : Z)
    (l : list dirent) : list dirent_ptr :=
  match l with
  | [] => []
  | e :: l' =>
      if match filter with Some f => negb (f e =? 0) | None => false end
      then accumulate filter a (i + 1) l'
      else {| p_ent := a; p_idx := i |} :: accumulate filter a (i + 1) l'
  end.

(** [*p] for a pointer into the vector [l]. *)
Definition deref_in (l : list dirent) (p : dirent_ptr) : option dirent :=
  if p_idx p <? 0 then None else l !! Z.to_nat (p_idx p).

(** The comparator as [qsort] applies it to two slots of the list. *)
Definition cmp_slots (l : list dirent) (compare : dirent → dirent → Z)
    (p q : dirent_ptr) : Z :=
  match deref_in l p, deref_in l q with
  | Some x, Some y => compare x y
  | _, _ => 0
  end.

(** The result is the return value together with the list stored through
    [namelist] ([None] when nothing is stored).  The handle obtained from
    [dc_find_or_populate] is never closed.  The counter [n] is an [int];
    it counts elements of a snapshot, whose size came from an [int]. *)
Definition dircache_scandir (w : World) (dirp : string)
    (filter : option (dirent → Z)) (compare : option (dirent → dirent → Z))
    : M (Z * option (list dirent_ptr)) :=
  do ctx <- dc_find_or_populate w dirp;
  match ctx with
  | None => ret (-1, None)
  | Some h =>
      do c <- load_ctx h;
      do e <- load_ent (ent c);
      let namelist := accumulate filter (ent c) 0 (entries e) in
      let n := vec_size namelist in
      ret (n, Some (match compare with
                    | Some cmp =>
                        if n =? 0 then namelist
                        else qsort (cmp_slots (entries e) cmp) namelist
                    | None => namelist
                    end))
  end.

(** ** Views used to state the properties *)

(** The record a pointer returned by the cache designates. *)
Definition deref (st : State) (p : dirent_ptr) : option dirent :=
  match ents st !! p_ent p with
  | Some e => deref_in (entries e) p
  | None => None
  end.

(** The records of the snapshot a handle refers to. *)
Definition snapshot_of (st : State) (h : addr) : option (list dirent) :=
  match ctxs st !! h with
  | Some c => match ents st !! ent c with
              | Some e => Some (entries e)
              | None => None
              end
  | None => None
  end.

(** [n] consecutive calls of [dircache_readdir] on one handle; the result
    lists the record each call designates ([None] for a null result). *)
Fixpoint readdir_n (n : nat) (dir : addr) : M (list (option dirent)) :=
  match n with
  | O => ret []
  | S n' =>
      do p <- dircache_readdir dir;
      do d <- (λ st, Some (match p with Some q => deref st q | None => None end, st));
      do rest <- readdir_n n' dir;
      ret (d :: rest)
  end.

(** ** Sequences of calls *)

Inductive op : Type :=
| OpOpendir (w : World) (path : string)
| OpReaddir (dir : addr)
| OpRewinddir (dir : addr)
| OpTelldir (dir : addr)
| OpSeekdir (dir : addr) (loc : Z)
| OpClosedir (dir : addr)
| OpScandir (w : World) (dirp : string) (filter : option (dirent → Z))
    (compare : option (dirent → dirent → Z))
| OpInvalidate.

Definition is_invalidate (o : op) : bool :=
  match o with OpInvalidate => true | _ => false end.

(** One call of the public interface, its result dropped. *)
Definition exec (o : op) : M unit :=
  match o with
  | OpOpendir w path => dircache_opendir w path ;; ret tt
  | OpReaddir dir => dircache_readdir dir ;; ret tt
  | OpRewinddir dir => dircache_rewinddir dir
  | OpTelldir dir => dircache_telldir dir ;; ret tt
  | OpSeekdir dir loc => dircache_seekdir dir loc
  | OpClosedir dir => dircache_closedir dir
  | OpScandir w dirp filter compare =>
      dircache_scandir w dirp filter compare ;; ret tt
  | OpInvalidate => dircache_invalidate
  end.

Fixpoint run (ops : list op) : M unit :=
  match ops with
  | [] => ret tt
  | o :: ops' => exec o ;; run ops'
  end.

End Dircache.

(** ** Predicates on states *)

(** The position of handle [h] is an index into, or one past the end of,
    the records of its snapshot. *)
Definition pos_in_bounds (st : State) (h : addr) : Prop :=
  ∃ c e, ctxs st !! h = Some c ∧ ents st !! ent c = Some e ∧
         0 <= pos c <= vec_size (entries e).

(** Every snapshot allocated in [st] is still allocated in [st'], with the
    records and the time stamp it had. *)
Definition ents_preserved (st st' : State) : Prop :=
  ∀ a e, ents st !! a = Some e →
    ∃ e', ents st' !! a = Some e' ∧ entries e' = entries e ∧
          addedat e' = addedat e.

Definition trace_extended (st st' : State) : Prop :=
  ∃ t, trace st' = trace st ++ t.

(** Every path mapped in [st] is mapped to the same snapshot in [st']. *)
Definition db_kept (st st' : State) : Prop :=
  ∀ p a, dir_db st !! p = Some a → dir_db st' !! p = Some a.

Definition evolves (st st' : State) : Prop :=
  ents_preserved st st' ∧ trace_extended st st'.

(** Every defined run of [m] relates the state before to the state after. *)
Definition preserves {A : Type} (R : State → State → Prop) (m : M A) : Prop :=
  ∀ st a st', m st = Some (a, st') → R st st'.

(** The life cycle of the snapshot at address [a]. *)
Definition destroyed (st : State) (a : addr) : Prop := ents st !! a = None.
Definition unlinked (st : State) (a : addr) : Prop :=
  ∀ p, dir_db st !! p ≠ Some a.
Definition unreferenced (st : State) (a : addr) : Prop :=
  ∀ h c, ctxs st !! h = Some c → ent c ≠ a.

(** The locking discipline on one access to the map: a lookup is made
    with the lock held (in either mode), an insertion or a clear with the
    lock held in exclusive mode. *)
Definition event_disciplined (e : event) : bool :=
  match e with
  | EvFind _ Unlocked => false
  | EvFind _ _ => true
  | EvInsert _ WriteLocked => true
  | EvInsert _ _ => false
  | EvClear WriteLocked => true
  | EvClear _ => false
  | EvOpendir _ | EvScandir _ => true
  end.
Definition lock_disciplined (t : list event) : bool :=
  forallb event_disciplined t.

(** The part of the discipline that concerns the writes. *)
Definition write_disciplined (e : event) : bool :=
  match e with
  | EvInsert _ WriteLocked | EvClear WriteLocked => true
  | EvInsert _ _ | EvClear _ => false
  | _ => true
  end.

(** The comparator [dc_find_or_populate] hands to [scandir]. *)
Definition by_name (a b : dirent) : Z := strcmp (d_name a) (d_name b).

(** Within one directory a name identifies its entry. *)
Definition names_unique (l : list dirent) : Prop :=
  ∀ x y, x ∈ l → y ∈ l → by_name x y = 0 → x = y.

(** ** The outcomes of a call *)

(** The snapshot [e] after one [nref.fetch_add(1)]. *)
Definition bump (e : dirent_t) : dirent_t :=
  {| entries := entries e; nref := (nref e + 1) mod UINT32_modulus;
     addedat := addedat e |}.

(** What [n] consecutive reads return on a handle at position [p] of the
    record sequence [l]. *)
Fixpoint read_from (l : list dirent) (p : Z) (n : nat) : list (option dirent) :=
  match n with
  | O => []
  | S n' =>
      if p >=? vec_size l then None :: read_from l p n'
      else deref_in l {| p_ent := 0%nat; p_idx := p |}
             :: read_from l (to_size_t (p + 1)) n'
  end.

Section Outcomes.
Context `{L : Libc}.

(** The ways a call of [dc_find_or_populate] can end. *)
Inductive populate_outcome (w : World) (path : string) (st : State)
    : option addr → State → Prop :=
| OutcomeHit a e :
    dir_db st !! path = Some a → ents st !! a = Some e →
    populate_outcome w path st (Some (fresh (dom (ctxs st))))
      (set_ents <[a := bump e]>
         (set_ctxs <[fresh (dom (ctxs st)) := {| pos := 0; ent := a |}]>
            (emit (EvFind path (db_lock st)) st)))
| OutcomeNoDir :
    dir_db st !! path = None → w_opendir w path = false →
    populate_outcome w path st None
      (emit (EvOpendir path) (emit (EvFind path (db_lock st)) st))
| OutcomeNoScan :
    dir_db st !! path = None → w_opendir w path = true →
    w_list w path = None →
    populate_outcome w path st None
      (emit (EvScandir path) (emit (EvOpendir path)
         (emit (EvFind path (db_lock st)) st)))
| OutcomePopulated raw st' :
    dir_db st !! path = None → db_lock st = Unlocked →
    w_opendir w path = true → w_list w path = Some raw →
    dir_db st' = <[path := fresh (dom (ents st))]> (dir_db st) →
    db_lock st' = Unlocked →
    ents st' = <[fresh (dom (ents st)) :=
                   {| entries := qsort by_name raw; nref := 1;
                      addedat := dc_get_time w |}]> (ents st) →
    ctxs st' = <[fresh (dom (ctxs st)) :=
                   {| pos := 0; ent := fresh (dom (ents st)) |}]> (ctxs st) →
    trace st' = trace st ++ [EvFind path Unlocked; EvOpendir path;
                             EvScandir path; EvInsert path WriteLocked] →
    populate_outcome w path st (Some (fresh (dom (ctxs st)))) st'.

End Outcomes.

(** ** Reference counts and the outcomes of single calls *)

(** The number of handles in the heap [m] that refer to the snapshot at
    address [a]. *)
Definition count_on (m : gmap addr dircontext_t) (a : addr) : nat :=
  size (filter (λ hc : addr * dircontext_t, ent hc.2 = a) m).
Definition handles_on (st : State) (a : addr) : nat := count_on (ctxs st) a.

(** A state in which no pointer dangles and the reference counts are
    right: every handle and every entry of the map points to an allocated
    snapshot, and the counter of each snapshot is the number of handles on
    it, as a 32-bit value. *)
Record consistent (st : State) : Prop := mk_consistent {
  cons_handles : ∀ h c, ctxs st !! h = Some c → is_Some (ents st !! ent c);
  cons_db : ∀ p a, dir_db st !! p = Some a → is_Some (ents st !! a);
  cons_nref : ∀ a e, ents st !! a = Some e →
    nref e = Z.of_nat (handles_on st a) mod UINT32_modulus
}.

(** A call that stays within the cache: the handle it works on is one
    that is open, or the path it is given is one that is cached, so that
    it neither scans a directory nor copies records out of the blocks
    [scandir(3)] allocates. *)
Definition op_live (st : State) (o : op) : Prop :=
  match o with
  | OpReaddir h | OpRewinddir h | OpTelldir h | OpSeekdir h _ | OpClosedir h =>
      is_Some (ctxs st !! h)
  | OpOpendir _ path | OpScandir _ path _ _ => is_Some (dir_db st !! path)
  | OpInvalidate => True
  end.

(** The snapshot [e] after one [nref.fetch_sub(1)]. *)
Definition unbump (e : dirent_t) : dirent_t :=
  {| entries := entries e; nref := (nref e + -1) mod UINT32_modulus;
     addedat := addedat e |}.

(** The state in which handle [h] has moved to position [p]. *)
Definition move_to (h : addr) (c : dircontext_t) (p : Z) (st : State) : State :=
  set_ctxs <[h := {| pos := p; ent := ent c |}]> st.

Section ExecOutcomes.
Context `{L : Libc}.

(** The state a defined call of the public interface ends in. *)
Inductive exec_outcome : op → State → State → Prop :=
| ExecOpendir w path st r st' :
    populate_outcome w path st r st' →
    exec_outcome (OpOpendir w path) st st'
| ExecScandir w dirp filter compare st r st' :
    populate_outcome w dirp st r st' →
    exec_outcome (OpScandir w dirp filter compare) st st'
| ExecReaddirEnd h st c e :
    ctxs st !! h = Some c → ents st !! ent c = Some e →
    vec_size (entries e) <= pos c →
    exec_outcome (OpReaddir h) st st
| ExecReaddir h st c e :
    ctxs st !! h = Some c → ents st !! ent c = Some e →
    pos c < vec_size (entries e) →
    exec_outcome (OpReaddir h) st (move_to h c (to_size_t (pos c + 1)) st)
| ExecRewinddir h st c :
    ctxs st !! h = Some c →
    exec_outcome (OpRewinddir h) st (move_to h c 0 st)
| ExecTelldir h st c :
    ctxs st !! h = Some c →
    exec_outcome (OpTelldir h) st st
| ExecSeekdirIgnored h loc st c e :
    ctxs st !! h = Some c → ents st !! ent c = Some e →
    vec_size (entries e) <= to_size_t loc →
    exec_outcome (OpSeekdir h loc) st st
| ExecSeekdir h loc st c e :
    ctxs st !! h = Some c → ents st !! ent c = Some e →
    to_size_t loc < vec_size (entries e) →
    exec_outcome (OpSeekdir h loc) st (move_to h c (to_size_t loc) st)
| ExecClosedir h st c e :
    ctxs st !! h = Some c → ents st !! ent c = Some e →
    exec_outcome (OpClosedir h) st
      (set_ctxs (delete h) (set_ents <[ent c := unbump e]> st))
| ExecInvalidate st :
    db_lock st = Unlocked →
    exec_outcome OpInvalidate st
      (set_db_lock Unlocked (emit (EvClear WriteLocked)
         (set_dir_db (λ _, ∅) (set_db_lock WriteLocked st)))).

End ExecOutcomes.

(** The lock is free after the calls if it was free before them, and the
    writes to the map they made were made in exclusive mode. *)
Definition lock_returned (st st' : State) : Prop :=
  db_lock st = Unlocked →
  db_lock st' = Unlocked ∧
  ∃ t, trace st' = trace st ++ t ∧ forallb write_disciplined t = true.

(** The handle a call takes as its argument. *)
Definition op_handle (o : op) : option addr :=
  match o with
  | OpReaddir h | OpRewinddir h | OpTelldir h | OpSeekdir h _ | OpClosedir h =>
      Some h
  | OpOpendir _ _ | OpScandir _ _ _ _ | OpInvalidate => None
  end.

(** No snapshot is mapped under two paths. *)
Definition db_injective (st : State) : Prop :=
  ∀ p q a, dir_db st !! p = Some a → dir_db st !! q = Some a → p = q.

(** ** The first variant of the cache

    The first half of the source file is an earlier cache with the same
    entry points: the map [gDirMap] owns one context per path, a context
    keeps the directory stream it was opened with, and its list of entries
    is filled on demand.  The stream operations of the C library act on a
    heap of streams; [telldir(3)] and [seekdir(3)], whose tokens the
    library leaves opaque, are not modelled, and neither are the two entry
    points that only wrap them. *)

(** The entries a filter accepts: those on which it returns non-zero, and
    every entry when the filter is null. *)
Definition accepted_by (filter : option (dirent → Z)) (d : dirent) : Prop :=
  match filter with
  | Some f => f d ≠ 0
  | None => True
  end.

#[export] Instance accepted_by_dec filter d : Decision (accepted_by filter d).
Proof. destruct filter; simpl; apply _. Defined.

Module Legacy.

(** A directory stream ([DIR]): the path it was opened on, the entries it
    yields and the number of them [readdir(3)] has returned. *)
Record DIR : Type := mk_DIR {
  s_path : string;
  s_entries : list dirent;
  s_read : nat
}.

Record dircontext_t : Type := mk_dircontext_t {
  m_dir : option addr;
  m_entries : list dirent;
  m_pos : Z
}.

Record State : Type := mk_State {
  gDirMap : gmap string addr;
  contexts : gmap addr dircontext_t;
  streams : gmap addr DIR
}.

Definition init_State : State :=
  {| gDirMap := ∅; contexts := ∅; streams := ∅ |}.

Definition set_gDirMap (f : gmap string addr → gmap string addr) (st : State) : State :=
  {| gDirMap := f (gDirMap st); contexts := contexts st; streams := streams st |}.
Definition set_contexts (f : gmap addr dircontext_t → gmap addr dircontext_t)
    (st : State) : State :=
  {| gDirMap := gDirMap st; contexts := f (contexts st); streams := streams st |}.
Definition set_streams (f : gmap addr DIR → gmap addr DIR) (st : State) : State :=
  {| gDirMap := gDirMap st; contexts := contexts st; streams := f (streams st) |}.

(** The monad: as for the second variant, [None] is undefined behaviour. *)
Definition M (A : Type) : Type := State → option (A * State).
Definition ret {A : Type} (a : A) : M A := λ st, Some (a, st).
Definition bind {A B : Type} (m : M A) (k : A → M B) : M B :=
  λ st, match m st with
        | Some (a, st') => k a st'
        | None => None
        end.
Definition modify (f : State → State) : M unit := λ st, Some (tt, f st).
Definition undefined {A : Type} : M A := λ _, None.

Notation "'do' x <-- m ; k" := (bind m (λ x, k))
  (at level 10, x name, m at level 100, k at level 200).
Notation "m ;;; k" := (bind m (λ _, k))
  (at level 100, k at level 200, right associativity).

Definition load_ctx (h : addr) : M dircontext_t :=
  λ st, match contexts st !! h with Some c => Some (c, st) | None => None end.
Definition store_ctx (h : addr) (c : dircontext_t) : M unit :=
  modify (set_contexts <[h := c]>).

(** [new dircontext_t()]: a context with a null stream, no entries and
    position 0, at an address that is not in use; and [delete]. *)
Definition new_ctx : M addr :=
  λ st, let h := fresh (dom (contexts st)) in
        Some (h, set_contexts <[h := {| m_dir := None; m_entries := [];
                                        m_pos := 0 |}]> st).
Definition delete_ctx (h : addr) : M unit :=
  λ st, match contexts st !! h with
        | Some _ => Some (tt, set_contexts (delete h) st)
        | None => None
        end.

(** *** Directory streams of the C library *)

(** [opendir(3)]: null when the directory cannot be opened, a new stream
    at its start otherwise (a stream that yields nothing if the directory
    cannot be scanned). *)
Definition opendir (w : World) (path : string) : M (option addr) :=
  λ st, if w_opendir w path then
          let d := fresh (dom (streams st)) in
          Some (Some d,
                set_streams <[d := {| s_path := path;
                                      s_entries := default [] (w_list w path);
                                      s_read := 0 |}]> st)
        else Some (None, st).

(** [readdir(3)]: the next entry of the stream, or null at its end.  The
    behaviour is undefined on a pointer that is not an open stream. *)
Definition readdir (dirp : option addr) : M (option dirent) :=
  match dirp with
  | None => undefined
  | Some d =>
      λ st, match streams st !! d with
            | None => None
            | Some s =>
                match s_entries s !! s_read s with
                | Some e =>
                    Some (Some e,
                          set_streams <[d := {| s_path := s_path s;
                                                s_entries := s_entries s;
                                                s_read := S (s_read s) |}]> st)
                | None => Some (None, st)
                end
            end
  end.

(** [rewinddir(3)]: back to the start, on the directory as it is now. *)
Definition rewinddir (w : World) (dirp : option addr) : M unit :=
  match dirp with
  | None => undefined
  | Some d =>
      λ st, match streams st !! d with
            | None => None
            | Some s =>
                Some (tt,
                      set_streams <[d := {| s_path := s_path s;
                                            s_entries :=
                                              default [] (w_list w (s_path s));
                                            s_read := 0 |}]> st)
            end
  end.

(** [closedir(3)]; like [readdir(3)], not defined on a pointer that is not
    an open stream. *)
Definition closedir (dirp : option addr) : M unit :=
  match dirp with
  | None => undefined
  | Some d =>
      λ st, match streams st !! d with
            | None => None
            | Some _ => Some (tt, set_streams (delete d) st)
            end
  end.

Section Variant.
Context `{L : Libc}.

(** [scandir(3)], as in the second variant: [None] is the result [-1]. *)
Definition scandir (w : World) (path : string)
    (filter : option (dirent → Z)) (compar : option (dirent → dirent → Z))
    : option (list dirent) :=
  match w_list w path with
  | None => None
  | Some raw =>
      let kept := match filter with
                  | Some f => base.filter (λ d, f d ≠ 0) raw
                  | None => raw
                  end in
      Some (match compar with
            | Some c => qsort c kept
            | None => kept
            end)
  end.

(** *** The entry points *)

(** One context of the loop of [dircache_invalidate]. *)
Definition invalidate_one (dir : addr) : M unit :=
  do c <-- load_ctx dir;
  match m_dir c with
  | Some d =>
      closedir (Some d) ;;;
      store_ctx dir {| m_dir := None; m_entries := m_entries c;
                       m_pos := m_pos c |}
  | None => ret tt
  end ;;;
  delete_ctx dir.

Fixpoint invalidate_each (dirs : list addr) : M unit :=
  match dirs with
  | [] => ret tt
  | dir :: dirs' => invalidate_one dir ;;; invalidate_each dirs'
  end.

(** The contexts are visited in the order of the map, which the source
    leaves open. *)
Definition dircache_invalidate : M unit :=
  λ st, (invalidate_each (map_to_list (gDirMap st)).*2 ;;;
         modify (set_gDirMap (λ _, ∅))) st.

(** The first branch of [dircache_readdir]: the next entry of the list. *)
Definition read_cached (dir : addr) : M (option dirent_ptr) :=
  do c <-- load_ctx dir;
  if vec_size (m_entries c) <=? m_pos c then ret None else
  store_ctx dir {| m_dir := m_dir c; m_entries := m_entries c;
                   m_pos := to_size_t (m_pos c + 1) |} ;;;
  ret (Some {| p_ent := dir; p_idx := m_pos c |}).

(** The loop that appends to [m_entries] every entry [readdir(3)] returns
    and stops at the first null; [fuel] bounds its iterations. *)
Fixpoint read_stream (fuel : nat) (dir : addr) : M unit :=
  match fuel with
  | O => undefined
  | S fuel' =>
      do c <-- load_ctx dir;
      do dent <-- readdir (m_dir c);
      match dent with
      | None => ret tt
      | Some e =>
          store_ctx dir {| m_dir := m_dir c; m_entries := m_entries c ++ [e];
                           m_pos := m_pos c |} ;;;
          read_stream fuel' dir
      end
  end.

(** The number of entries a stream has left, plus one for the null. *)
Definition stream_fuel (st : State) (dirp : option addr) : nat :=
  match dirp with
  | Some d => match streams st !! d with
              | Some s => S (length (s_entries s) - s_read s)
              | None => 1
              end
  | None => 1
  end.

(** The call of itself that ends [dircache_readdir] is made with a list
    that is not empty, so it is a call of the first branch. *)
Definition dircache_readdir (dir : addr) : M (option dirent_ptr) :=
  do c <-- load_ctx dir;
  if negb (bool_decide (m_entries c = [])) then read_cached dir else
  (λ st, read_stream (stream_fuel st (m_dir c)) dir st) ;;;
  do c' <-- load_ctx dir;
  if bool_decide (m_entries c' = []) then ret None else
  read_cached dir.

Definition dircache_opendir (w : World) (path : string) : M (option addr) :=
  λ st,
    match gDirMap st !! path with
    | None =>
        (do dtree <-- new_ctx;
         do d <-- opendir w path;
         match d with
         | None => delete_ctx dtree ;;; ret None
         | Some _ =>
             store_ctx dtree {| m_dir := d; m_entries := []; m_pos := 0 |} ;;;
             modify (set_gDirMap <[path := dtree]>) ;;;
             ret (Some dtree)
         end) st
    | Some it =>
        (do c <-- load_ctx it;
         match m_dir c with
         | None =>
             do d <-- opendir w path;
             store_ctx it {| m_dir := d; m_entries := m_entries c;
                             m_pos := m_pos c |}
         | Some _ => ret tt
         end ;;;
         ret (Some it)) st
    end.

Definition dircache_rewinddir (w : World) (dir : addr) : M unit :=
  do c <-- load_ctx dir;
  store_ctx dir {| m_dir := m_dir c; m_entries := m_entries c; m_pos := 0 |} ;;;
  rewinddir w (m_dir c).

Definition dircache_closedir (dir : addr) : M unit :=
  do c <-- load_ctx dir;
  closedir (m_dir c) ;;;
  store_ctx dir {| m_dir := None; m_entries := m_entries c;
                   m_pos := m_pos c |}.

(** What [dircache_scandir] stores through [namelist]: pointers into the
    list of the context, or the copies [scandir(3)] allocated. *)
Inductive namelist : Type :=
| Cached (l : list dirent_ptr)
| Copied (l : list dirent).

(** The loop over the cached entries: the element is skipped when
    [filter] is set and returns 0 on it. *)
Fixpoint accumulate (filter : option (dirent → Z)) (dir : addr) (i : Z)
    (l : list dirent) : list dirent_ptr :=
  match l with
  | [] => []
  | e :: l' =>
      if match filter with Some f => f e =? 0 | None => false end
      then accumulate filter dir (i + 1) l'
      else {| p_ent := dir; p_idx := i |} :: accumulate filter dir (i + 1) l'
  end.

(** The lambda [populateItems]; as in the second variant, the records
    [scandir(3)] returned are copied by value. *)
Definition populateItems (w : World) (dirp : string)
    (filter : option (dirent → Z)) (compare : option (dirent → dirent → Z))
    (dir : addr) : M (Z * option namelist) :=
  match scandir w dirp filter compare with
  | None => ret (-1, None)
  | Some items =>
      do c <-- load_ctx dir;
      store_ctx dir {| m_dir := m_dir c; m_entries := m_entries c ++ items;
                       m_pos := m_pos c |} ;;;
      ret (vec_size items, Some (Copied items))
  end.

Definition dircache_scandir (w : World) (dirp : string)
    (filter : option (dirent → Z)) (compare : option (dirent → dirent → Z))
    : M (Z * option namelist) :=
  λ st,
    match gDirMap st !! dirp with
    | Some dir =>
        (do c <-- load_ctx dir;
         if negb (bool_decide (m_entries c = [])) then
           let found := accumulate filter dir 0 (m_entries c) in
           ret (vec_size found,
                Some (Cached (match compare with
                              | Some cmp =>
                                  qsort (cmp_slots (m_entries c) cmp) found
                              | None => found
                              end)))
         else populateItems w dirp filter compare dir) st
    | None =>
        (do dir <-- new_ctx;
         do d <-- opendir w dirp;
         match d with
         | None => delete_ctx dir ;;; ret (-1, None)
         | Some _ =>
             store_ctx dir {| m_dir := d; m_entries := []; m_pos := 0 |} ;;;
             modify (set_gDirMap <[dirp := dir]>) ;;;
             populateItems w dirp filter compare dir
         end) st
    end.

(** *** Views *)

(** The records a stored list designates. *)
Definition listed (st : State) (nl : namelist) : list (option dirent) :=
  match nl with
  | Cached l =>
      (λ p, match contexts st !! p_ent p with
            | Some c => deref_in (m_entries c) p
            | None => None
            end) <$> l
  | Copied l => Some <$> l
  end.

(** [n] consecutive calls of [dircache_readdir]. *)
Fixpoint readdir_n (n : nat) (dir : addr) : M (list (option dirent)) :=
  match n with
  | O => ret []
  | S n' =>
      do p <-- dircache_readdir dir;
      do d <-- (λ st, Some (match p with
                           | Some q => match contexts st !! p_ent q with
                                       | Some c => deref_in (m_entries c) q
                                       | None => None
                                       end
                           | None => None
                           end, st));
      do rest <-- readdir_n n' dir;
      ret (d :: rest)
  end.

End Variant.

(** A state in which the list [hs] of contexts can be torn down: the
    contexts are distinct and allocated, and their streams are open and
    distinct. *)
Definition teardown_ok (st : State) (hs : list addr) : Prop :=
  NoDup hs ∧
  (∀ h, h ∈ hs → ∃ c, contexts st !! h = Some c ∧
          ∀ d, m_dir c = Some d → is_Some (streams st !! d)) ∧
  (∀ h1 h2 c1 c2 d, h1 ∈ hs → h2 ∈ hs →
     contexts st !! h1 = Some c1 → contexts st !! h2 = Some c2 →
     m_dir c1 = Some d → m_dir c2 = Some d → h1 = h2).

End Legacy.

(** ** The demonstration program

    [main] of the test harness, without its timing and printing.  The
    first argument is the storage namespace as the calls before the
    invalidation see it, the second as the last call sees it. *)

Section Harness.
Context `{L : Libc}.

(** The loop [while ((d = dircache_readdir(tree))) { }]: it reads until
    the first null; the result is the number of records read.  [fuel]
    bounds its iterations. *)
Fixpoint read_until_null (fuel : nat) (dir : addr) : M nat :=
  match fuel with
  | O => λ _, None
  | S fuel' =>
      do d <- dircache_readdir dir;
      match d with
      | None => ret O
      | Some _ => do n <- read_until_null fuel' dir; ret (S n)
      end
  end.

(** The number of records the handle has left, plus one for the null. *)
Definition records_left (st : State) (dir : addr) : nat :=
  match ctxs st !! dir with
  | Some c => match ents st !! ent c with
              | Some e => S (Z.to_nat (vec_size (entries e) - pos c))
              | None => 1
              end
  | None => 1
  end.

Definition read_loop (dir : addr) : M nat :=
  λ st, read_until_null (records_left st dir) dir st.

(** What a run of [main] that returns has observed: the number of
    records each of the two reading loops read and the values the two
    calls of [dircache_scandir] returned. *)
Record observed : Type := mk_observed {
  first_pass : nat;
  second_pass : nat;
  cached_scandir : Z;
  uncached_scandir : Z
}.

(** [None] is the abort of [assert(tree)]; [Some o] is the return of 0. *)
Definition main (w w' : World) : M (option observed) :=
  do tree <- dircache_opendir w "tree";
  match tree with
  | None => ret None
  | Some tree =>
      do n1 <- read_loop tree;
      dircache_rewinddir tree ;;
      do n2 <- read_loop tree;
      do r1 <- dircache_scandir w "tree" None None;
      dircache_invalidate ;;
      do r2 <- dircache_scandir w' "tree" None None;
      ret (Some {| first_pass := n1; second_pass := n2;
                   cached_scandir := r1.1; uncached_scandir := r2.1 |})
  end.

End Harness.

(** ** Sample data *)

Definition ent_a : dirent := {| d_ino := 11; d_type := 8; d_name := "a" |}.
Definition ent_b : dirent := {| d_ino := 12; d_type := 8; d_name := "b" |}.
Definition ent_c : dirent := {| d_ino := 13; d_type := 4; d_name := "c" |}.

(** A namespace in which only ["tree"] exists, yielding [b], [a], [c]. *)
Definition w_tree : World :=
  {| w_opendir := λ p, String.eqb p "tree";
     w_list := λ p, if String.eqb p "tree" then Some [ent_b; ent_a; ent_c]
                    else None;
     w_tv_sec := 5; w_tv_nsec := 7000000 |}.

(** The same directory, yielded in another order at a later time. *)
Definition w_tree' : World :=
  {| w_opendir := λ p, String.eqb p "tree";
     w_list := λ p, if String.eqb p "tree" then Some [ent_c; ent_b; ent_a]
                    else None;
     w_tv_sec := 9; w_tv_nsec := 0 |}.

(** A state with the snapshot of ["tree"] cached and one handle on it. *)
Definition snap_tree : dirent_t :=
  {| entries := [ent_a; ent_b; ent_c]; nref := 1; addedat := 0 |}.
Definition ctx_tree : dircontext_t := {| pos := 0; ent := 0%nat |}.
Definition st_tree : State :=
  {| dir_db := {["tree" := 0%nat]};
     db_lock := Unlocked;
     ents := {[0%nat := snap_tree]};
     ctxs := {[0%nat := ctx_tree]};
     trace := [] |}.

(** The filter "the name starts with [a]". *)
Definition starts_with_a (d : dirent) : Z :=
  if String.prefix "a" (d_name d) then 1 else 0.

(** A namespace in which every path is a directory that holds no file: a
    scan yields its two dot entries. *)
Definition ent_dot : dirent := {| d_ino := 2; d_type := 4; d_name := "." |}.
Definition ent_dotdot : dirent := {| d_ino := 1; d_type := 4; d_name := ".." |}.
Definition w_empty : World :=
  {| w_opendir := λ _, true; w_list := λ _, Some [ent_dotdot; ent_dot];
     w_tv_sec := 1; w_tv_nsec := 0 |}.

(** States of the first variant: ["tree"] just opened; ["tree"] after its
    entries have been read once; an empty directory just opened. *)
Definition legacy_st_tree : Legacy.State :=
  {| Legacy.gDirMap := {["tree" := 0%nat]};
     Legacy.contexts :=
       {[0%nat := {| Legacy.m_dir := Some 0%nat; Legacy.m_entries := [];
                     Legacy.m_pos := 0 |}]};
     Legacy.streams :=
       {[0%nat := {| Legacy.s_path := "tree";
                     Legacy.s_entries := [ent_b; ent_a; ent_c];
                     Legacy.s_read := 0 |}]} |}.

Definition legacy_ctx_cached : Legacy.dircontext_t :=
  {| Legacy.m_dir := Some 0%nat;
     Legacy.m_entries := [ent_b; ent_a; ent_c];
     Legacy.m_pos := 1 |}.
Definition legacy_st_cached : Legacy.State :=
  {| Legacy.gDirMap := {["tree" := 0%nat]};
     Legacy.contexts := {[0%nat := legacy_ctx_cached]};
     Legacy.streams :=
       {[0%nat := {| Legacy.s_path := "tree";
                     Legacy.s_entries := [ent_b; ent_a; ent_c];
                     Legacy.s_read := 3 |}]} |}.

Definition legacy_st_void : Legacy.State :=
  {| Legacy.gDirMap := {["void" := 0%nat]};
     Legacy.contexts :=
       {[0%nat := {| Legacy.m_dir := Some 0%nat; Legacy.m_entries := [];
                     Legacy.m_pos := 0 |}]};
     Legacy.streams :=
       {[0%nat := {| Legacy.s_path := "void"; Legacy.s_entries := [];
                     Legacy.s_read := 0 |}]} |}.

(** ** A C library

    Merge sort is one [qsort] that meets the contract; the concrete runs
    below are evaluated with it. *)

#[export] Instance cmp_le_dec {A : Type} (cmp : A → A → Z) (a b : A) :
  Decision (cmp_le cmp a b) := Z_le_dec (cmp a b) 0.

#[export, program] Instance libc_merge_sort : Libc :=
  {| qsort A cmp l := merge_sort (cmp_le cmp) l |}.
Next Obligation. intros A cmp l. apply merge_sort_Permutation. Qed.
Next Obligation.
  intros A cmp l [Htot Htrans].
  apply (@StronglySorted_merge_sort _ (cmp_le cmp) _).
  - intros a b c. apply Htrans.
  - intros a b. apply Htot.
Qed.

(** * Properties *)

(** ** Machine integers *)

Lemma to_size_t_small z : 0 <= z < SIZE_MAX_plus_1 → to_size_t z = z.
Proof. intros. unfold to_size_t. apply Z.mod_small. lia. Qed.

Lemma to_size_t_bounds z : 0 <= to_size_t z < SIZE_MAX_plus_1.
Proof. unfold to_size_t, SIZE_MAX_plus_1. apply Z.mod_pos_bound. lia. Qed.

Lemma to_size_t_le z : 0 <= z → to_size_t z <= z.
Proof. intros. unfold to_size_t, SIZE_MAX_plus_1. apply Z.mod_le; lia. Qed.

Lemma to_size_t_negative z :
  - 2 ^ 63 <= z < 0 → to_size_t z = z + SIZE_MAX_plus_1.
Proof.
  intros Hz. unfold to_size_t, SIZE_MAX_plus_1 in *.
  symmetry. apply (Z.mod_unique z (2 ^ 64) (-1)); lia.
Qed.

Lemma vec_size_nonneg {A : Type} (l : list A) : 0 <= vec_size l.
Proof. unfold vec_size. lia. Qed.

(** ** The cursor operations, one call at a time *)

Ltac munfold :=
  unfold dircache_readdir, dircache_rewinddir, dircache_seekdir,
    dircache_telldir, dircache_closedir, dc_close, dc_build_around_ent,
    nref_fetch_add, new_ctx, new_ent, load_ctx, load_ent, bind, ret, modify
    in *.

Lemma readdir_spec st h c e :
  ctxs st !! h = Some c → ents st !! ent c = Some e →
  dircache_readdir h st =
    if pos c >=? vec_size (entries e) then Some (None, st)
    else Some (Some {| p_ent := ent c; p_idx := pos c |},
               set_ctxs <[h := {| pos := to_size_t (pos c + 1);
                                  ent := ent c |}]> st).
Proof.
  intros Hc He. munfold. rewrite Hc, He. by destruct (pos c >=? _).
Qed.

Lemma rewinddir_spec st h c :
  ctxs st !! h = Some c →
  dircache_rewinddir h st =
    Some (tt, set_ctxs <[h := {| pos := 0; ent := ent c |}]> st).
Proof. intros Hc. munfold. by rewrite Hc. Qed.

Lemma seekdir_spec st h c e loc :
  ctxs st !! h = Some c → ents st !! ent c = Some e →
  dircache_seekdir h loc st =
    if to_size_t loc >=? vec_size (entries e) then Some (tt, st)
    else Some (tt, set_ctxs <[h := {| pos := to_size_t loc;
                                      ent := ent c |}]> st).
Proof.
  intros Hc He. munfold. rewrite Hc, He. by destruct (to_size_t loc >=? _).
Qed.

Lemma build_around_ent_spec st dent e :
  ents st !! dent = Some e →
  dc_build_around_ent dent st =
    Some (fresh (dom (ctxs st)),
          set_ents <[dent := {| entries := entries e;
                                nref := (nref e + 1) mod UINT32_modulus;
                                addedat := addedat e |}]>
            (set_ctxs <[fresh (dom (ctxs st)) := {| pos := 0; ent := dent |}]>
               st)).
Proof. intros He. munfold. simpl. by rewrite He. Qed.

Lemma closedir_spec st h c e :
  ctxs st !! h = Some c → ents st !! ent c = Some e →
  dircache_closedir h st =
    Some (tt, set_ctxs (delete h)
                (set_ents <[ent c := {| entries := entries e;
                                        nref := (nref e + -1) mod UINT32_modulus;
                                        addedat := addedat e |}]> st)).
Proof. intros Hc He. munfold. simpl. by rewrite Hc, He. Qed.

Lemma fresh_ctx_unused st : ctxs st !! fresh (dom (ctxs st)) = None.
Proof. apply not_elem_of_dom, is_fresh. Qed.

Lemma fresh_ent_unused st : ents st !! fresh (dom (ents st)) = None.
Proof. apply not_elem_of_dom, is_fresh. Qed.

Lemma pos_in_bounds_update st h h' c' e' p :
  ctxs st !! h' = Some c' → ents st !! ent c' = Some e' →
  0 <= p <= vec_size (entries e') →
  pos_in_bounds st h →
  pos_in_bounds (set_ctxs <[h' := {| pos := p; ent := ent c' |}]> st) h.
Proof.
  intros Hc' He' Hp (c & e & Hc & He & Hb).
  destruct (decide (h' = h)) as [->|Hne].
  - exists {| pos := p; ent := ent c' |}, e'. simpl.
    rewrite lookup_insert_eq. done.
  - exists c, e. simpl. rewrite lookup_insert_ne by done. done.
Qed.

(** C10.  A handle is created with its position within the bounds of its
    snapshot ([0 <= pos <= size]); every call of [dircache_readdir],
    [dircache_rewinddir] and [dircache_seekdir] on a handle in bounds
    returns and leaves every handle in bounds; and when [dircache_readdir]
    returns a record, the index it used is a valid index of the snapshot's
    record sequence. *)
Theorem handle_position_in_bounds :
  (∀ st dent, is_Some (ents st !! dent) →
     ∃ h st', dc_build_around_ent dent st = Some (h, st') ∧
              ctxs st !! h = None ∧ pos_in_bounds st' h) ∧
  (∀ st dir, pos_in_bounds st dir →
     ∃ r st', dircache_readdir dir st = Some (r, st') ∧
       (∀ h, pos_in_bounds st h → pos_in_bounds st' h) ∧
       (∀ p, r = Some p →
          ∃ c e, ctxs st !! dir = Some c ∧ ents st !! ent c = Some e ∧
                 p = {| p_ent := ent c; p_idx := pos c |} ∧
                 0 <= pos c < vec_size (entries e) ∧
                 is_Some (deref st' p))) ∧
  (∀ st dir, pos_in_bounds st dir →
     ∃ st', dircache_rewinddir dir st = Some (tt, st') ∧
       ∀ h, pos_in_bounds st h → pos_in_bounds st' h) ∧
  (∀ st dir loc, pos_in_bounds st dir →
     ∃ st', dircache_seekdir dir loc st = Some (tt, st') ∧
       ∀ h, pos_in_bounds st h → pos_in_bounds st' h).
Proof.
  repeat split.
  - intros st dent [e He].
    rewrite (build_around_ent_spec _ _ _ He).
    eexists _, _. split; [done|]. split; [apply fresh_ctx_unused|].
    exists {| pos := 0; ent := dent |}. eexists. simpl.
    rewrite !lookup_insert_eq. split; [done|]. split; [done|].
    simpl. pose proof (vec_size_nonneg (entries e)). lia.
  - intros st dir (c & e & Hc & He & Hb).
    rewrite (readdir_spec _ _ _ _ Hc He).
    destruct (pos c >=? vec_size (entries e)) eqn:Hge.
    + eexists _, _. split; [done|]. split; [done|]. intros p [=].
    + rewrite Z.geb_leb in Hge; apply Z.leb_gt in Hge.
      eexists _, _. split; [done|]. split.
      * intros h. apply (pos_in_bounds_update _ _ _ _ _ _ Hc He).
        pose proof (to_size_t_bounds (pos c + 1)).
        pose proof (to_size_t_le (pos c + 1)). lia.
      * intros p [= <-]. exists c, e. repeat split; try done; try lia.
        unfold deref, deref_in. simpl. rewrite He.
        destruct (pos c <? 0) eqn:Hneg; [lia|].
        apply lookup_lt_is_Some. unfold vec_size in *. lia.
  - intros st dir (c & e & Hc & He & Hb).
    rewrite (rewinddir_spec _ _ _ Hc).
    eexists. split; [done|]. intros h.
    apply (pos_in_bounds_update _ _ _ _ _ _ Hc He). lia.
  - intros st dir loc (c & e & Hc & He & Hb).
    rewrite (seekdir_spec _ _ _ _ loc Hc He).
    destruct (to_size_t loc >=? vec_size (entries e)) eqn:Hge.
    + eexists. split; done.
    + rewrite Z.geb_leb in Hge; apply Z.leb_gt in Hge.
      eexists. split; [done|]. intros h.
      apply (pos_in_bounds_update _ _ _ _ _ _ Hc He).
      pose proof (to_size_t_bounds loc). lia.
Qed.

(** ** Reading a handle to the end *)

(** Reading on from position [|l1|] of a snapshot [l1 ++ l2] yields the
    records of [l2] in order and leaves the handle at the end. *)
Lemma readdir_n_from (l2 : list dirent) : ∀ (l1 : list dirent) st h a e,
  entries e = l1 ++ l2 →
  ctxs st !! h = Some {| pos := vec_size l1; ent := a |} →
  ents st !! a = Some e →
  vec_size (entries e) <= PTRDIFF_MAX →
  ∃ st', readdir_n (length l2) h st = Some (Some <$> l2, st') ∧
         ctxs st' !! h = Some {| pos := vec_size (entries e); ent := a |} ∧
         ents st' = ents st ∧ dir_db st' = dir_db st ∧
         db_lock st' = db_lock st ∧ trace st' = trace st ∧
         (∀ h', h' ≠ h → ctxs st' !! h' = ctxs st !! h').
Proof.
  induction l2 as [|d l2 IH]; intros l1 st h a e Hl Hc He Hmax.
  - exists st. simpl. rewrite app_nil_r in Hl. rewrite Hl. by unfold ret.
  - assert (Hlen : vec_size (entries e) = vec_size l1 + 1 + vec_size l2).
    { rewrite Hl. unfold vec_size. rewrite length_app. simpl. lia. }
    pose proof (vec_size_nonneg l1). pose proof (vec_size_nonneg l2).
    simpl. unfold bind at 1.
    rewrite (readdir_spec _ _ _ _ Hc He). simpl.
    destruct (vec_size l1 >=? vec_size (entries e)) eqn:Hge.
    { rewrite Z.geb_leb in Hge. apply Z.leb_le in Hge. lia. }
    unfold bind at 1. unfold deref, deref_in. simpl. rewrite He.
    destruct (vec_size l1 <? 0) eqn:Hneg; [lia|].
    replace (entries e !! Z.to_nat (vec_size l1)) with (Some d); last first.
    { rewrite Hl. unfold vec_size. rewrite Nat2Z.id.
      by rewrite list_lookup_middle. }
    rewrite to_size_t_small by (unfold SIZE_MAX_plus_1, PTRDIFF_MAX in *; lia).
    destruct (IH (l1 ++ [d])
                (set_ctxs <[h := {| pos := vec_size l1 + 1; ent := a |}]> st)
                h a e) as (st' & Hrun & Hc' & He' & Hdb & Hlk & Htr & Hoth).
    + by rewrite <- app_assoc.
    + simpl. rewrite lookup_insert_eq. f_equal. f_equal.
      unfold vec_size. rewrite length_app. simpl. lia.
    + done.
    + done.
    + exists st'. unfold bind. rewrite Hrun. unfold ret.
      repeat split; try done.
      intros h' Hne. rewrite (Hoth h' Hne). simpl.
      by rewrite lookup_insert_ne.
Qed.

(** At or past the end every read returns null and changes nothing. *)
Lemma readdir_n_end st h c e (k : nat) :
  ctxs st !! h = Some c → ents st !! ent c = Some e →
  vec_size (entries e) <= pos c →
  readdir_n k h st = Some (replicate k None, st).
Proof.
  intros Hc He Hge. induction k as [|k IH]; [done|].
  simpl. unfold bind at 1. rewrite (readdir_spec _ _ _ _ Hc He).
  destruct (pos c >=? vec_size (entries e)) eqn:Hg.
  - unfold bind. rewrite IH. done.
  - rewrite Z.geb_leb in Hg. apply Z.leb_gt in Hg. lia.
Qed.

(** C6.  On a handle at position 0 of a snapshot with N records, N
    consecutive calls of [dircache_readdir] return the N records in order,
    and from then on every call returns null and leaves the state, hence
    the handle, as it is. *)
Theorem readdir_sequential_exhaustion st h a e :
  ctxs st !! h = Some {| pos := 0; ent := a |} →
  ents st !! a = Some e →
  vec_size (entries e) <= PTRDIFF_MAX →
  ∃ st', readdir_n (length (entries e)) h st = Some (Some <$> entries e, st') ∧
         ctxs st' !! h = Some {| pos := vec_size (entries e); ent := a |} ∧
         (∀ k, readdir_n k h st' = Some (replicate k None, st')).
Proof.
  intros Hc He Hmax.
  destruct (readdir_n_from (entries e) [] st h a e)
    as (st' & Hrun & Hc' & He' & _); try done.
  exists st'. split; [done|]. split; [done|]. intros k.
  eapply readdir_n_end; [exact Hc' | simpl; by rewrite He' | simpl; lia].
Qed.

(** ** Seeking *)

(** A token inside the snapshot becomes the position. *)
Lemma seekdir_inside st h c e loc :
  ctxs st !! h = Some c → ents st !! ent c = Some e →
  vec_size (entries e) <= PTRDIFF_MAX →
  0 <= loc < vec_size (entries e) →
  dircache_seekdir h loc st =
    Some (tt, set_ctxs <[h := {| pos := loc; ent := ent c |}]> st).
Proof.
  intros Hc He Hmax Hloc. rewrite (seekdir_spec _ _ _ _ loc Hc He).
  rewrite to_size_t_small by (unfold SIZE_MAX_plus_1, PTRDIFF_MAX in *; lia).
  destruct (loc >=? vec_size (entries e)) eqn:Hge; [|done].
  rewrite Z.geb_leb in Hge. apply Z.leb_le in Hge. lia.
Qed.

(** A negative token, or one past the number of records, is ignored. *)
Lemma seekdir_outside st h c e loc :
  ctxs st !! h = Some c → ents st !! ent c = Some e →
  vec_size (entries e) <= PTRDIFF_MAX →
  long_range loc → loc < 0 ∨ vec_size (entries e) < loc →
  dircache_seekdir h loc st = Some (tt, st).
Proof.
  intros Hc He Hmax Hrange Hloc. rewrite (seekdir_spec _ _ _ _ loc Hc He).
  pose proof (vec_size_nonneg (entries e)).
  unfold long_range, PTRDIFF_MAX in *.
  assert (vec_size (entries e) <= to_size_t loc) as Hle.
  { destruct (Z_lt_dec loc 0).
    - rewrite to_size_t_negative by lia. unfold SIZE_MAX_plus_1. lia.
    - rewrite to_size_t_small by (unfold SIZE_MAX_plus_1; lia). lia. }
  destruct (to_size_t loc >=? vec_size (entries e)) eqn:Hge; [done|].
  rewrite Z.geb_leb in Hge. apply Z.leb_gt in Hge. lia.
Qed.

(** C2 (divergence).  The token equal to the number of records, which
    [dircache_telldir] returns once the handle is exhausted, is ignored as
    well: [dircache_seekdir] leaves the whole state, and with it the
    position, unchanged. *)
Theorem seekdir_end_token_ignored st h c e :
  ctxs st !! h = Some c → ents st !! ent c = Some e →
  vec_size (entries e) <= PTRDIFF_MAX →
  dircache_seekdir h (vec_size (entries e)) st = Some (tt, st).
Proof.
  intros Hc He Hmax. rewrite (seekdir_spec _ _ _ _ _ Hc He).
  pose proof (vec_size_nonneg (entries e)).
  rewrite to_size_t_small by (unfold SIZE_MAX_plus_1, PTRDIFF_MAX in *; lia).
  destruct (vec_size (entries e) >=? vec_size (entries e)) eqn:Hge; [done|].
  rewrite Z.geb_leb in Hge. apply Z.leb_gt in Hge. lia.
Qed.

(** ** What every call leaves in place

    The relations [evolves] and [db_kept] are preorders, so they pass
    through [bind]: a computation preserves them as soon as each of its
    steps does. *)

Section Frames.
Context `{L : Libc}.

#[local] Instance ents_preserved_preorder : PreOrder ents_preserved.
Proof.
  split.
  - intros st a e He. by exists e.
  - intros s1 s2 s3 H12 H23 a e He.
    destruct (H12 a e He) as (e2 & He2 & Hen & Had).
    destruct (H23 a e2 He2) as (e3 & He3 & Hen3 & Had3).
    exists e3. split; [done|]. split; congruence.
Qed.

#[local] Instance trace_extended_preorder : PreOrder trace_extended.
Proof.
  split.
  - intros st. exists []. by rewrite app_nil_r.
  - intros s1 s2 s3 [t1 H1] [t2 H2]. exists (t1 ++ t2).
    by rewrite H2, H1, app_assoc.
Qed.

#[local] Instance db_kept_preorder : PreOrder db_kept.
Proof. split; [by intros st p a|]. intros s1 s2 s3 H1 H2 p a Hp. eauto. Qed.

#[local] Instance evolves_preorder : PreOrder evolves.
Proof.
  split.
  - intros st. split; reflexivity.
  - intros s1 s2 s3 [? ?] [? ?]. split; etrans; eauto.
Qed.

Lemma preserves_ret {A} R `{!PreOrder R} (a : A) : preserves R (ret a).
Proof. intros st a' st' [= _ <-]. reflexivity. Qed.

Lemma preserves_bind {A B} R `{!PreOrder R} (m : M A) (k : A → M B) :
  preserves R m → (∀ a, preserves R (k a)) → preserves R (bind m k).
Proof.
  intros Hm Hk st b st'. unfold bind.
  destruct (m st) as [[a st1]|] eqn:Hmst; [|done].
  intros Hkst. etrans; [eapply Hm, Hmst | eapply Hk, Hkst].
Qed.

Lemma preserves_modify R (f : State → State) :
  (∀ st, R st (f st)) → preserves R (modify f).
Proof. intros Hf st a st' [= _ <-]. apply Hf. Qed.

Lemma evolves_emit ev st : evolves st (emit ev st).
Proof. split; [by intros a e He; exists e | by exists [ev]]. Qed.

Lemma evolves_same st st' :
  ents st' = ents st → trace st' = trace st → evolves st st'.
Proof.
  intros He Ht. split.
  - intros a e Ha. exists e. by rewrite He.
  - exists []. by rewrite app_nil_r.
Qed.

Lemma evolves_load_ctx h : preserves evolves (load_ctx h).
Proof.
  intros st c st'. unfold load_ctx. destruct (ctxs st !! h); [|done].
  intros [= _ <-]. reflexivity.
Qed.

Lemma evolves_load_ent a : preserves evolves (load_ent a).
Proof.
  intros st c st'. unfold load_ent. destruct (ents st !! a); [|done].
  intros [= _ <-]. reflexivity.
Qed.

Lemma evolves_new_ctx c : preserves evolves (new_ctx c).
Proof. intros st h st' [= _ <-]. by apply evolves_same. Qed.

Lemma evolves_new_ent e : preserves evolves (new_ent e).
Proof.
  intros st h st' [= _ <-]. split; [|exists []; by rewrite app_nil_r].
  intros a e0 Ha. exists e0. simpl. rewrite lookup_insert_ne; [done|].
  intros <-. pose proof (is_fresh (dom (ents st))) as Hf.
  apply Hf, elem_of_dom. eauto.
Qed.

Lemma evolves_nref_fetch_add a d : preserves evolves (nref_fetch_add a d).
Proof.
  intros st [] st'. unfold nref_fetch_add, bind, load_ent, modify.
  destruct (ents st !! a) as [e|] eqn:He; [|done].
  intros [= <-]. split; [|exists []; by rewrite app_nil_r].
  intros a' e' Ha'. simpl. destruct (decide (a = a')) as [<-|Hne].
  - rewrite lookup_insert_eq. eexists. split; [done|]. simpl.
    split; congruence.
  - rewrite lookup_insert_ne by done. by exists e'.
Qed.

Lemma evolves_write_lock : preserves evolves write_lock.
Proof.
  intros st [] st'. unfold write_lock. destruct (db_lock st); try done.
  intros [= <-]. by apply evolves_same.
Qed.

Lemma evolves_db_find p : preserves evolves (db_find p).
Proof. intros st r st' [= _ <-]. apply evolves_emit. Qed.

Lemma evolves_db_insert p a : preserves evolves (db_insert p a).
Proof.
  intros st [] st' [= <-]. etrans; [|apply evolves_emit]. by apply evolves_same.
Qed.

Lemma evolves_db_clear : preserves evolves db_clear.
Proof.
  intros st [] st' [= <-]. etrans; [|apply evolves_emit]. by apply evolves_same.
Qed.

Create HintDb frames.
#[local] Hint Resolve evolves_load_ctx evolves_load_ent evolves_new_ctx
  evolves_new_ent evolves_nref_fetch_add evolves_write_lock evolves_db_find
  evolves_db_insert evolves_db_clear evolves_emit : frames.

Ltac frame_step :=
  first
    [ progress auto with frames
    | apply preserves_ret; tc_solve
    | apply preserves_bind; [tc_solve | | intros ?]
    | apply preserves_modify; intros ?
    | match goal with |- preserves _ (match ?x with _ => _ end) => destruct x end
    | match goal with |- preserves _ (if ?x then _ else _) => destruct x end
    | match goal with |- evolves ?st (?f _ ?st) => by apply evolves_same end ].

Lemma evolves_dc_find_or_populate w path :
  preserves evolves (dc_find_or_populate w path).
Proof.
  unfold dc_find_or_populate, dc_build_around_ent, opendir, scandir, unlock.
  repeat frame_step.
Qed.

Ltac unfold_api :=
  unfold exec, dircache_opendir, dircache_readdir, dircache_rewinddir,
    dircache_telldir, dircache_seekdir, dircache_closedir, dircache_scandir,
    dircache_invalidate, dc_close, dc_find_or_populate, dc_build_around_ent,
    opendir, scandir, unlock.

Lemma evolves_exec o : preserves evolves (exec o).
Proof. destruct o; unfold_api; repeat frame_step. Qed.

Lemma evolves_run ops : preserves evolves (run ops).
Proof.
  induction ops as [|o ops IH]; simpl.
  - apply preserves_ret; tc_solve.
  - apply preserves_bind; [tc_solve | apply evolves_exec | done].
Qed.

Lemma db_kept_same st st' : dir_db st' = dir_db st → db_kept st st'.
Proof. intros Hdb p a. by rewrite Hdb. Qed.

Lemma db_kept_load_ctx h : preserves db_kept (load_ctx h).
Proof.
  intros st c st'. unfold load_ctx. destruct (ctxs st !! h); [|done].
  intros [= _ <-]. reflexivity.
Qed.

Lemma db_kept_load_ent a : preserves db_kept (load_ent a).
Proof.
  intros st c st'. unfold load_ent. destruct (ents st !! a); [|done].
  intros [= _ <-]. reflexivity.
Qed.

Lemma db_kept_new_ctx c : preserves db_kept (new_ctx c).
Proof. intros st h st' [= _ <-]. by apply db_kept_same. Qed.

Lemma db_kept_new_ent e : preserves db_kept (new_ent e).
Proof. intros st h st' [= _ <-]. by apply db_kept_same. Qed.

Lemma db_kept_nref_fetch_add a d : preserves db_kept (nref_fetch_add a d).
Proof.
  intros st [] st'. unfold nref_fetch_add, bind, load_ent, modify.
  destruct (ents st !! a) as [e|] eqn:He; [|done].
  intros [= <-]. by apply db_kept_same.
Qed.

Lemma db_kept_write_lock : preserves db_kept write_lock.
Proof.
  intros st [] st'. unfold write_lock. destruct (db_lock st); try done.
  intros [= <-]. by apply db_kept_same.
Qed.

Lemma db_kept_db_find p : preserves db_kept (db_find p).
Proof. intros st r st' [= _ <-]. by apply db_kept_same. Qed.

Lemma db_kept_db_insert p a : preserves db_kept (db_insert p a).
Proof.
  intros st [] st' [= <-] q b Hq. simpl.
  destruct (dir_db st !! p) eqn:Hp; [done|].
  rewrite lookup_insert_ne; [done|]. congruence.
Qed.

#[local] Hint Resolve db_kept_load_ctx db_kept_load_ent db_kept_new_ctx
  db_kept_new_ent db_kept_nref_fetch_add db_kept_write_lock db_kept_db_find
  db_kept_db_insert : frames.

Ltac db_step :=
  first
    [ frame_step
    | match goal with |- db_kept ?st (?f _ ?st) => by apply db_kept_same end ].

Lemma db_kept_exec o : is_invalidate o = false → preserves db_kept (exec o).
Proof. destruct o; [..|done]; intros _; unfold_api; repeat db_step. Qed.

Lemma db_kept_run ops :
  forallb (λ o, negb (is_invalidate o)) ops = true → preserves db_kept (run ops).
Proof.
  induction ops as [|o ops IH]; simpl; intros Hops.
  - apply preserves_ret; tc_solve.
  - apply andb_true_iff in Hops as [Ho Hops].
    apply preserves_bind; [tc_solve| |intros _; by apply IH].
    apply db_kept_exec. by destruct (is_invalidate o).
Qed.

End Frames.

(** ** Looking a path up and populating it *)

Section Population.
Context `{L : Libc}.

Lemma find_or_populate_hit w path st a e :
  dir_db st !! path = Some a → ents st !! a = Some e →
  dc_find_or_populate w path st =
    Some (Some (fresh (dom (ctxs st))),
          set_ents <[a := bump e]>
            (set_ctxs <[fresh (dom (ctxs st)) := {| pos := 0; ent := a |}]>
               (emit (EvFind path (db_lock st)) st))).
Proof.
  intros Hdb He. unfold dc_find_or_populate, db_find, bind at 1. rewrite Hdb.
  unfold bind at 1.
  rewrite (build_around_ent_spec _ _ e) by done. done.
Qed.

Lemma find_or_populate_opendir_fails w path st :
  dir_db st !! path = None → w_opendir w path = false →
  dc_find_or_populate w path st =
    Some (None, emit (EvOpendir path) (emit (EvFind path (db_lock st)) st)).
Proof.
  intros Hdb Hw. unfold dc_find_or_populate, db_find, bind at 1. rewrite Hdb.
  unfold opendir, bind, modify, ret. simpl. by rewrite Hw.
Qed.

Lemma find_or_populate_scandir_fails w path st :
  dir_db st !! path = None → w_opendir w path = true → w_list w path = None →
  dc_find_or_populate w path st =
    Some (None, emit (EvScandir path) (emit (EvOpendir path)
                  (emit (EvFind path (db_lock st)) st))).
Proof.
  intros Hdb Hw Hl. unfold dc_find_or_populate, db_find, bind at 1. rewrite Hdb.
  unfold opendir, scandir, bind, modify, ret. simpl. rewrite Hw. simpl.
  by rewrite Hl.
Qed.

Lemma filter_keep_all (raw : list dirent) :
  base.filter (λ _ : dirent, 1 ≠ 0) raw = raw.
Proof.
  induction raw as [|d raw IH]; [done|].
  rewrite filter_cons_True by lia. by rewrite IH.
Qed.

Lemma find_or_populate_populates w path st raw :
  dir_db st !! path = None → db_lock st = Unlocked →
  w_opendir w path = true → w_list w path = Some raw →
  ∃ st', dc_find_or_populate w path st
           = Some (Some (fresh (dom (ctxs st))), st') ∧
    dir_db st' = <[path := fresh (dom (ents st))]> (dir_db st) ∧
    db_lock st' = Unlocked ∧
    ents st' = <[fresh (dom (ents st)) :=
                   {| entries := qsort by_name raw; nref := 1;
                      addedat := dc_get_time w |}]> (ents st) ∧
    ctxs st' = <[fresh (dom (ctxs st)) :=
                   {| pos := 0; ent := fresh (dom (ents st)) |}]> (ctxs st) ∧
    trace st' = trace st ++ [EvFind path Unlocked; EvOpendir path;
                             EvScandir path; EvInsert path WriteLocked].
Proof.
  intros Hdb Hlk Hw Hl.
  unfold dc_find_or_populate, db_find, opendir, scandir, new_ent, write_lock,
    db_insert, unlock, dc_build_around_ent, nref_fetch_add, new_ctx, load_ent,
    bind, modify, ret.
  do 6 (simpl; rewrite ?Hdb, ?Hw, ?Hl, ?Hlk, ?lookup_insert_eq).
  eexists. split; [reflexivity|]. simpl.
  rewrite filter_keep_all, insert_insert_eq.
  repeat split; try done.
  - by rewrite Hdb.
  - rewrite <- !app_assoc. done.
Qed.

Lemma uchar_nonneg c : 0 <= uchar c.
Proof. unfold uchar. lia. Qed.

Lemma strcmp_antisym s1 : ∀ s2, strcmp s1 s2 = - strcmp s2 s1.
Proof.
  induction s1 as [|c1 r1 IH]; intros [|c2 r2]; simpl; try lia.
  rewrite (Z.eqb_sym (uchar c2) (uchar c1)).
  destruct (uchar c1 =? uchar c2) eqn:Heq; [|lia].
  apply Z.eqb_eq in Heq. rewrite <- Heq.
  destruct (uchar c1 =? 0); [done|apply IH].
Qed.

Lemma strcmp_trans s1 : ∀ s2 s3,
  strcmp s1 s2 <= 0 → strcmp s2 s3 <= 0 → strcmp s1 s3 <= 0.
Proof.
  induction s1 as [|c1 r1 IH]; intros [|c2 r2] [|c3 r3]; simpl;
    try pose proof (uchar_nonneg c1); try pose proof (uchar_nonneg c2);
    try pose proof (uchar_nonneg c3); try lia;
    repeat match goal with
           | |- context [?x =? ?y] =>
               let E := fresh "E" in
               destruct (Z.eqb_spec x y) as [E|E]; try rewrite E in *
           end; try lia.
  apply IH.
Qed.

Lemma by_name_consistent : cmp_consistent by_name.
Proof.
  split.
  - intros a b. unfold cmp_le, by_name.
    rewrite (strcmp_antisym (d_name b) (d_name a)). lia.
  - intros a b c. unfold cmp_le, by_name. apply strcmp_trans.
Qed.

Lemma snapshot_of_lookup st h c e :
  ctxs st !! h = Some c → ents st !! ent c = Some e →
  snapshot_of st h = Some (entries e).
Proof. intros Hc He. unfold snapshot_of. by rewrite Hc, He. Qed.

(** C8.  A population (a call of [dircache_opendir] on a path that is not
    mapped, whose scan succeeds) returns a handle on a snapshot that holds
    the scanned entries in ascending order of name; two populations whose
    scans yield the same entries, in whatever order, produce the same
    record sequence, names being unique within a directory. *)
Theorem population_ordered_by_name w1 w2 p1 p2 st1 st2 raw1 raw2 :
  dir_db st1 !! p1 = None → db_lock st1 = Unlocked →
  w_opendir w1 p1 = true → w_list w1 p1 = Some raw1 →
  dir_db st2 !! p2 = None → db_lock st2 = Unlocked →
  w_opendir w2 p2 = true → w_list w2 p2 = Some raw2 →
  ∃ h1 st1' l1 h2 st2' l2,
    dircache_opendir w1 p1 st1 = Some (Some h1, st1') ∧
    snapshot_of st1' h1 = Some l1 ∧
    dircache_opendir w2 p2 st2 = Some (Some h2, st2') ∧
    snapshot_of st2' h2 = Some l2 ∧
    StronglySorted (cmp_le by_name) l1 ∧ l1 ≡ₚ raw1 ∧
    StronglySorted (cmp_le by_name) l2 ∧ l2 ≡ₚ raw2 ∧
    (raw1 ≡ₚ raw2 → names_unique raw1 → l1 = l2).
Proof.
  intros Hdb1 Hlk1 Hw1 Hl1 Hdb2 Hlk2 Hw2 Hl2.
  destruct (find_or_populate_populates w1 p1 st1 raw1)
    as (st1' & Hr1 & _ & _ & He1 & Hc1 & _); try done.
  destruct (find_or_populate_populates w2 p2 st2 raw2)
    as (st2' & Hr2 & _ & _ & He2 & Hc2 & _); try done.
  eexists _, st1', (qsort by_name raw1), _, st2', (qsort by_name raw2).
  split; [exact Hr1|]. split.
  { unfold snapshot_of. rewrite Hc1, lookup_insert_eq. simpl.
    by rewrite He1, lookup_insert_eq. }
  split; [exact Hr2|]. split.
  { unfold snapshot_of. rewrite Hc2, lookup_insert_eq. simpl.
    by rewrite He2, lookup_insert_eq. }
  pose proof by_name_consistent as Hcons.
  split; [by apply qsort_sorted|]. split; [apply qsort_Permutation|].
  split; [by apply qsort_sorted|]. split; [apply qsort_Permutation|].
  intros Hperm Huniq.
  apply (StronglySorted_unique_strong (cmp_le by_name));
    [|by apply qsort_sorted..|].
  - intros x y Hx Hy Hxy Hyx. apply Huniq.
    + by rewrite qsort_Permutation in Hx.
    + rewrite qsort_Permutation in Hy. by rewrite Hperm.
    + unfold cmp_le, by_name in *.
      rewrite (strcmp_antisym (d_name y) (d_name x)) in Hyx. lia.
  - by rewrite !qsort_Permutation.
Qed.

Lemma find_or_populate_dangling w path st a :
  dir_db st !! path = Some a → ents st !! a = None →
  dc_find_or_populate w path st = None.
Proof.
  intros Hdb He.
  unfold dc_find_or_populate, db_find, dc_build_around_ent, nref_fetch_add,
    new_ctx, load_ent, bind.
  rewrite Hdb. simpl. by rewrite He.
Qed.

Lemma find_or_populate_blocked w path st raw :
  dir_db st !! path = None → db_lock st ≠ Unlocked →
  w_opendir w path = true → w_list w path = Some raw →
  dc_find_or_populate w path st = None.
Proof.
  intros Hdb Hlk Hw Hl.
  unfold dc_find_or_populate, db_find, opendir, scandir, new_ent, write_lock,
    bind, modify, ret.
  do 4 (simpl; rewrite ?Hdb, ?Hw, ?Hl).
  by destruct (db_lock st).
Qed.

Lemma find_or_populate_outcome w path st r st' :
  dc_find_or_populate w path st = Some (r, st') →
  populate_outcome w path st r st'.
Proof.
  intros Hrun.
  destruct (dir_db st !! path) as [a|] eqn:Hdb.
  - destruct (ents st !! a) as [e|] eqn:He.
    + rewrite (find_or_populate_hit _ _ _ _ _ Hdb He) in Hrun.
      injection Hrun as <- <-. by econstructor.
    + by rewrite (find_or_populate_dangling _ _ _ _ Hdb He) in Hrun.
  - destruct (w_opendir w path) eqn:Hw.
    + destruct (w_list w path) as [raw|] eqn:Hl.
      * destruct (db_lock st) eqn:Hlk.
        -- destruct (find_or_populate_populates w path st raw)
             as (st1 & Hr1 & ? & ? & ? & ? & ?); try done.
           rewrite Hr1 in Hrun. injection Hrun as <- <-.
           by econstructor.
        -- rewrite (find_or_populate_blocked _ _ _ raw Hdb) in Hrun;
             [done|by rewrite Hlk|done..].
        -- rewrite (find_or_populate_blocked _ _ _ raw Hdb) in Hrun;
             [done|by rewrite Hlk|done..].
      * rewrite (find_or_populate_scandir_fails _ _ _ Hdb Hw Hl) in Hrun.
        injection Hrun as <- <-. by constructor.
    + rewrite (find_or_populate_opendir_fails _ _ _ Hdb Hw) in Hrun.
      injection Hrun as <- <-. by constructor.
Qed.

(** C7.  When the path is not mapped and the scan fails ([opendir] or
    [scandir] reports an error), [dircache_opendir] returns null and
    [dircache_scandir] returns [-1] without storing a list, and the map,
    the snapshots and the handles are left as they were. *)
Theorem failed_scan_leaves_store_unchanged w path st filter compare :
  dir_db st !! path = None →
  w_opendir w path = false ∨ w_list w path = None →
  (∃ st', dircache_opendir w path st = Some (None, st') ∧
          dir_db st' = dir_db st ∧ ents st' = ents st ∧
          ctxs st' = ctxs st) ∧
  (∃ st', dircache_scandir w path filter compare st
            = Some ((-1, None), st') ∧
          dir_db st' = dir_db st ∧ ents st' = ents st ∧
          ctxs st' = ctxs st).
Proof.
  intros Hdb Hfail.
  assert (∃ st', dc_find_or_populate w path st = Some (None, st') ∧
                 dir_db st' = dir_db st ∧ ents st' = ents st ∧
                 ctxs st' = ctxs st) as (st' & Hrun & Hsame).
  { destruct (w_opendir w path) eqn:Hw.
    - destruct Hfail as [|Hl]; [done|].
      rewrite (find_or_populate_scandir_fails _ _ _ Hdb Hw Hl). by eexists.
    - rewrite (find_or_populate_opendir_fails _ _ _ Hdb Hw). by eexists. }
  split; exists st'.
  - by split.
  - split; [|done]. unfold dircache_scandir, bind. by rewrite Hrun.
Qed.
End Population.

(** ** The store: hits, invalidation, bulk listing *)

Lemma readdir_n_result n : ∀ st h c e,
  ctxs st !! h = Some c → ents st !! ent c = Some e →
  ∃ st', readdir_n n h st = Some (read_from (entries e) (pos c) n, st') ∧
         ents st' = ents st.
Proof.
  induction n as [|n IH]; intros st h c e Hc He.
  - by exists st.
  - simpl. unfold bind at 1. rewrite (readdir_spec _ _ _ _ Hc He).
    destruct (pos c >=? vec_size (entries e)) eqn:Hge.
    + destruct (IH st h c e Hc He) as (st' & Hrun & Hents).
      exists st'. unfold bind. by rewrite Hrun.
    + unfold bind at 1. unfold deref. simpl. rewrite He.
      destruct (IH (set_ctxs <[h := {| pos := to_size_t (pos c + 1);
                                       ent := ent c |}]> st)
                  h {| pos := to_size_t (pos c + 1); ent := ent c |} e)
        as (st' & Hrun & Hents).
      * simpl. apply lookup_insert_eq.
      * done.
      * exists st'. unfold bind. rewrite Hrun. done.
Qed.

Lemma readdir_n_agree n st h c e st' h' c' e' :
  ctxs st !! h = Some c → ents st !! ent c = Some e →
  ctxs st' !! h' = Some c' → ents st' !! ent c' = Some e' →
  pos c = pos c' → entries e = entries e' →
  ∃ l s s', readdir_n n h st = Some (l, s) ∧ readdir_n n h' st' = Some (l, s').
Proof.
  intros Hc He Hc' He' Hpos Hent.
  destruct (readdir_n_result n st h c e Hc He) as (s1 & H1 & _).
  destruct (readdir_n_result n st' h' c' e' Hc' He') as (s2 & H2 & _).
  exists (read_from (entries e) (pos c) n), s1, s2.
  split; [done|]. by rewrite Hpos, Hent.
Qed.

Section Store.
Context `{L : Libc}.

Lemma opendir_success w path st h st' :
  dircache_opendir w path st = Some (Some h, st') →
  ∃ a e, dir_db st' !! path = Some a ∧ ents st' !! a = Some e ∧
         ctxs st' !! h = Some {| pos := 0; ent := a |}.
Proof.
  intros Hrun. apply find_or_populate_outcome in Hrun.
  inversion Hrun as [a e Hdb He| | |raw st1 Hdb Hlk Hw Hl Hdb' Hlk' He' Hc' Ht'];
    subst.
  - exists a, (bump e). simpl. rewrite !lookup_insert_eq. done.
  - eexists _, _. rewrite Hdb', He', Hc', !lookup_insert_eq. done.
Qed.

(** C5.  After a successful [dircache_opendir] of a path and any further
    calls other than [dircache_invalidate], a second [dircache_opendir] of
    the path returns a handle, calls no storage primitive (the only event
    it adds to the trace is its lookup in the map), and the handle reads
    what the handle of the first call read: same records, same order. *)
Theorem cache_hit_avoids_rescan w1 w2 path ops st0 h1 st1 st2 :
  dircache_opendir w1 path st0 = Some (Some h1, st1) →
  forallb (λ o, negb (is_invalidate o)) ops = true →
  run ops st1 = Some (tt, st2) →
  ∃ h2 st3,
    dircache_opendir w2 path st2 = Some (Some h2, st3) ∧
    trace st3 = trace st2 ++ [EvFind path (db_lock st2)] ∧
    is_Some (snapshot_of st1 h1) ∧
    snapshot_of st3 h2 = snapshot_of st1 h1 ∧
    (∀ n, ∃ l s s', readdir_n n h2 st3 = Some (l, s) ∧
                    readdir_n n h1 st1 = Some (l, s')).
Proof.
  intros Hopen Hops Hrun.
  destruct (opendir_success _ _ _ _ _ Hopen) as (a & e & Hdb & He & Hc).
  pose proof (db_kept_run ops Hops _ _ _ Hrun _ _ Hdb) as Hdb2.
  destruct (evolves_run ops _ _ _ Hrun) as [Hpres _].
  destruct (Hpres a e He) as (e2 & He2 & Hent & _).
  unfold dircache_opendir at 1.
  rewrite (find_or_populate_hit _ _ _ _ _ Hdb2 He2).
  eexists _, _. split; [done|]. split; [done|].
  rewrite (snapshot_of_lookup _ _ _ _ Hc He).
  split; [done|]. split.
  - rewrite (snapshot_of_lookup _ _ {| pos := 0; ent := a |} (bump e2));
      simpl; rewrite ?lookup_insert_eq; congruence.
  - intros n.
    apply (readdir_n_agree n _ _ {| pos := 0; ent := a |} (bump e2)
             _ _ {| pos := 0; ent := a |} e);
      simpl; rewrite ?lookup_insert_eq; done.
Qed.


Lemma invalidate_spec st :
  db_lock st = Unlocked →
  dircache_invalidate st =
    Some (tt, set_db_lock Unlocked (emit (EvClear WriteLocked)
                (set_dir_db (λ _, ∅) (set_db_lock WriteLocked st)))).
Proof.
  intros Hlk. unfold dircache_invalidate, write_lock, db_clear, unlock, bind,
    modify. by rewrite Hlk.
Qed.

(** C4.  [dircache_invalidate] empties the map and leaves the handles and
    the snapshots as they are, so an open handle goes on reading the
    records it read before.  A following [dircache_opendir] of the path
    finds nothing in the map and goes to storage: it calls [opendir], and
    [scandir] when that succeeds, and storage alone decides its result.
    When both calls succeed it returns a new handle on a snapshot allocated
    by this call, not on the unlinked one; the snapshot holds the entries
    just scanned and the path is mapped to it.  In every case the handle
    opened before still reads the records it read before. *)
Theorem invalidate_spares_open_handles w path st h c e :
  ctxs st !! h = Some c → ents st !! ent c = Some e →
  db_lock st = Unlocked →
  ∃ st1, dircache_invalidate st = Some (tt, st1) ∧
    dir_db st1 = ∅ ∧ ctxs st1 = ctxs st ∧ ents st1 = ents st ∧
    (∀ n, ∃ l s s', readdir_n n h st1 = Some (l, s) ∧
                    readdir_n n h st = Some (l, s')) ∧
    ∃ r st2, dircache_opendir w path st1 = Some (r, st2) ∧
      (∃ t, trace st2 = trace st1 ++ EvFind path Unlocked :: EvOpendir path :: t) ∧
      (w_opendir w path = false →
         r = None ∧
         trace st2 = trace st1 ++ [EvFind path Unlocked; EvOpendir path]) ∧
      (w_opendir w path = true → w_list w path = None →
         r = None ∧
         trace st2 = trace st1 ++ [EvFind path Unlocked; EvOpendir path;
                                   EvScandir path]) ∧
      (∀ raw, w_opendir w path = true → w_list w path = Some raw →
         ∃ h' c', r = Some h' ∧ h' ≠ h ∧ ctxs st2 !! h' = Some c' ∧
                  ents st !! ent c' = None ∧ ent c' ≠ ent c ∧
                  dir_db st2 !! path = Some (ent c') ∧
                  snapshot_of st2 h' = Some (qsort by_name raw) ∧
                  trace st2 = trace st1 ++ [EvFind path Unlocked;
                                            EvOpendir path; EvScandir path;
                                            EvInsert path WriteLocked]) ∧
      (∀ n, ∃ l s s', readdir_n n h st2 = Some (l, s) ∧
                      readdir_n n h st = Some (l, s')).
Proof.
  intros Hc He Hlk. rewrite (invalidate_spec _ Hlk).
  set (st1 := set_db_lock Unlocked _).
  exists st1. split; [done|]. do 3 (split; [done|]). split.
  { intros n. by apply (readdir_n_agree n _ _ c e _ _ c e). }
  assert (Hdb1 : dir_db st1 !! path = None) by apply lookup_empty.
  unfold dircache_opendir.
  destruct (w_opendir w path) eqn:Hw.
  - destruct (w_list w path) as [raw|] eqn:Hl.
    + destruct (find_or_populate_populates w path st1 raw)
        as (st2 & Hrun & Hdb2 & Hlk2 & He2 & Hc2 & Ht2); try done.
      change (ents st1) with (ents st) in He2.
      change (ctxs st1) with (ctxs st) in Hc2, Hrun.
      assert (Hh : fresh (dom (ctxs st)) ≠ h).
      { intros Heq. pose proof (is_fresh (dom (ctxs st))) as Hf.
        rewrite Heq in Hf. apply Hf, elem_of_dom. by exists c. }
      assert (Ha : fresh (dom (ents st)) ≠ ent c).
      { intros Heq. pose proof (fresh_ent_unused st) as Hf.
        rewrite Heq in Hf. congruence. }
      exists (Some (fresh (dom (ctxs st)))), st2. split; [done|]. split.
      { eexists. by rewrite Ht2. }
      split; [done|]. split; [done|]. split.
      * intros raw' _ [= <-].
        exists (fresh (dom (ctxs st))), {| pos := 0; ent := fresh (dom (ents st)) |}.
        split; [done|]. split; [done|]. split.
        { rewrite Hc2. apply lookup_insert_eq. }
        simpl. split; [apply fresh_ent_unused|]. split; [done|]. split.
        { rewrite Hdb2. apply lookup_insert_eq. }
        split; [|done].
        unfold snapshot_of. rewrite Hc2, lookup_insert_eq. simpl.
        by rewrite He2, lookup_insert_eq.
      * intros n. apply (readdir_n_agree n _ _ c e _ _ c e); try done.
        -- rewrite Hc2. by rewrite lookup_insert_ne.
        -- rewrite He2. by rewrite lookup_insert_ne.
    + rewrite (find_or_populate_scandir_fails _ _ _ Hdb1 Hw Hl).
      eexists _, _. split; [done|]. split.
      { exists [EvScandir path]. simpl. by rewrite <- !app_assoc. }
      split; [done|]. split.
      { intros _ _. split; [done|]. simpl. by rewrite <- !app_assoc. }
      split; [done|].
      intros n. by apply (readdir_n_agree n _ _ c e _ _ c e).
  - rewrite (find_or_populate_opendir_fails _ _ _ Hdb1 Hw).
    eexists _, _. split; [done|]. split.
    { exists []. simpl. by rewrite <- !app_assoc. }
    split.
    { intros _. split; [done|]. simpl. by rewrite <- !app_assoc. }
    split; [done|]. split; [done|].
    intros n. by apply (readdir_n_agree n _ _ c e _ _ c e).
Qed.

Lemma accumulate_deref f a (l : list dirent) : ∀ pre all,
  all = pre ++ l →
  deref_in all <$> accumulate (Some f) a (vec_size pre) l
    = Some <$> base.filter (λ d, f d = 0) l.
Proof.
  induction l as [|d l IH]; intros pre all Hall; [done|].
  assert (Hnext : vec_size pre + 1 = vec_size (pre ++ [d])).
  { unfold vec_size. rewrite length_app. simpl. lia. }
  simpl. destruct (Z.eqb_spec (f d) 0) as [Hz|Hnz]; simpl.
  - rewrite filter_cons_True by done. simpl. f_equal.
    + unfold deref_in. simpl. pose proof (vec_size_nonneg pre).
      destruct (vec_size pre <? 0) eqn:Hneg; [lia|].
      rewrite Hall. unfold vec_size. rewrite Nat2Z.id.
      by rewrite list_lookup_middle.
    + rewrite Hnext. apply IH. by rewrite <- app_assoc.
  - rewrite filter_cons_False by done.
    rewrite Hnext. apply IH. by rewrite <- app_assoc.
Qed.

Lemma accumulate_ent filter a (l : list dirent) : ∀ i p,
  p ∈ accumulate filter a i l → p_ent p = a.
Proof.
  induction l as [|d l IH]; intros i p Hp; simpl in Hp.
  - by apply elem_of_nil in Hp.
  - destruct (match filter with
              | Some f => negb (f d =? 0)
              | None => false
              end).
    + by apply IH in Hp.
    + apply elem_of_cons in Hp as [->|Hp]; [done|by apply IH in Hp].
Qed.

Lemma deref_accumulate st filter a e (i : Z) (l : list dirent) :
  ents st !! a = Some e →
  deref st <$> accumulate filter a i l
    = deref_in (entries e) <$> accumulate filter a i l.
Proof.
  intros He. apply list_fmap_ext. intros k p Hp.
  apply list_elem_of_lookup_2, accumulate_ent in Hp.
  unfold deref. by rewrite Hp, He.
Qed.

(** C1 (divergence).  On a cached path [dircache_scandir] with a filter
    stores pointers to exactly the records on which the filter returns 0
    and returns their number: the records the filter accepts are the ones
    left out.  A comparator only rearranges them; without one they come in
    snapshot order. *)
Theorem scandir_filter_inverted w dirp st a e f compare :
  dir_db st !! dirp = Some a → ents st !! a = Some e →
  ∃ namelist st',
    dircache_scandir w dirp (Some f) compare st
      = Some ((vec_size namelist, Some namelist), st') ∧
    deref st' <$> namelist
      ≡ₚ Some <$> base.filter (λ d, f d = 0) (entries e) ∧
    (compare = None →
     deref st' <$> namelist
       = Some <$> base.filter (λ d, f d = 0) (entries e)).
Proof.
  intros Hdb He. unfold dircache_scandir, bind at 1.
  rewrite (find_or_populate_hit _ _ _ _ _ Hdb He).
  unfold load_ctx, load_ent, bind, ret. simpl.
  rewrite !lookup_insert_eq. simpl. rewrite lookup_insert_eq. simpl.
  set (nl := accumulate (Some f) a 0 (entries e)).
  set (st' := set_ents _ _).
  assert (Hnl : deref st' <$> nl
                = Some <$> base.filter (λ d, f d = 0) (entries e)).
  { rewrite <- (accumulate_deref f a (entries e) [] (entries e) eq_refl).
    apply (deref_accumulate st' (Some f) a (bump e)).
    apply lookup_insert_eq. }
  destruct compare as [cmp|].
  - destruct (vec_size nl =? 0) eqn:Hn.
    + exists nl, st'. split; [done|]. split; [by rewrite Hnl|done].
    + exists (qsort (cmp_slots (entries e) cmp) nl), st'.
      pose proof (qsort_Permutation (cmp_slots (entries e) cmp) nl) as Hp.
      split; [|split; [by rewrite Hp, Hnl|done]].
      unfold vec_size. by rewrite (Permutation_length Hp).
  - exists nl, st'. split; [done|]. split; [by rewrite Hnl|done].
Qed.

(** C9 (divergence).  A call of [dircache_opendir] made with no lock held
    begins with a lookup in the map performed with the store lock not
    held, so the trace of the call breaks the locking discipline. *)
Theorem lookup_bypasses_lock w path st r st' :
  db_lock st = Unlocked →
  dircache_opendir w path st = Some (r, st') →
  (∃ t, trace st' = trace st ++ EvFind path Unlocked :: t) ∧
  lock_disciplined (trace st') = false.
Proof.
  intros Hlk Hrun. apply find_or_populate_outcome in Hrun.
  assert (∃ t, trace st' = trace st ++ EvFind path Unlocked :: t) as [t Ht].
  { inversion Hrun as [a e Hdb He| | |raw st1 Hdb _ Hw Hl Hdb' Hlk' He' Hc' Ht'];
      subst; simpl; rewrite ?Hlk.
    - by exists [].
    - exists [EvOpendir path]. by rewrite <- app_assoc.
    - exists [EvOpendir path; EvScandir path]. by rewrite <- !app_assoc.
    - eexists. by rewrite Ht'. }
  split; [by exists t|].
  rewrite Ht. unfold lock_disciplined. rewrite forallb_app. simpl.
  apply andb_false_r.
Qed.

(** C3 (divergence).  No sequence of calls destroys a snapshot: one that
    is allocated before the calls is still allocated after them, with the
    records it had.  So a snapshot that the calls leave unlinked from the
    map and with no handle referring to it is not destroyed, where the
    claim says it is: the eviction that [dc_close] leaves to be done is
    missing. *)
Theorem snapshots_never_destroyed ops st st' a e :
  run ops st = Some (tt, st') →
  ents st !! a = Some e →
  ¬ destroyed st' a ∧
  (∃ e', ents st' !! a = Some e' ∧ entries e' = entries e) ∧
  (unlinked st' a → unreferenced st' a →
   ¬ (destroyed st' a ↔ unlinked st' a ∧ unreferenced st' a)).
Proof.
  intros Hrun He.
  destruct (evolves_run ops _ _ _ Hrun) as [Hp _].
  destruct (Hp a e He) as (e' & He' & Hen & _).
  assert (Hlive : ¬ destroyed st' a) by (unfold destroyed; by rewrite He').
  split; [done|]. split; [by exists e'|].
  intros Hu Hr [_ Hd]. by apply Hlive, Hd.
Qed.

(** The writes do follow the discipline: the insertion of a population
    and the clear of an invalidation are made in exclusive mode, and the
    lock is released afterwards. *)
Lemma map_writes_hold_exclusive_lock w path st :
  db_lock st = Unlocked →
  (∀ r st', dc_find_or_populate w path st = Some (r, st') →
     db_lock st' = Unlocked ∧
     ∃ t, trace st' = trace st ++ t ∧ forallb write_disciplined t = true) ∧
  (∃ st', dircache_invalidate st = Some (tt, st') ∧
          db_lock st' = Unlocked ∧
          trace st' = trace st ++ [EvClear WriteLocked]).
Proof.
  intros Hlk. split.
  - intros r st' Hrun. apply find_or_populate_outcome in Hrun.
    inversion Hrun as [a e Hdb He| | |raw st1 Hdb _ Hw Hl Hdb' Hlk' He' Hc' Ht'];
      subst; simpl; rewrite ?Hlk.
    + split; [done|]. by exists [EvFind path Unlocked].
    + split; [done|]. exists [EvFind path Unlocked; EvOpendir path].
      by rewrite <- app_assoc.
    + split; [done|].
      exists [EvFind path Unlocked; EvOpendir path; EvScandir path].
      by rewrite <- !app_assoc.
    + split; [done|]. eexists. by rewrite Ht'.
  - rewrite (invalidate_spec _ Hlk). by eexists.
Qed.

End Store.

(** ** Concrete runs *)

(** C3, from the empty cache.  The snapshot of ["tree"] is created by an
    open; after the handle is closed and the cache invalidated it is
    unlinked from the map and no handle refers to it, and it is still
    allocated. *)
Lemma unlinked_unreferenced_not_destroyed :
  ∃ h st1 st,
    dircache_opendir w_tree "tree" init_State = Some (Some h, st1) ∧
    dir_db st1 !! "tree" = Some 0%nat ∧
    run [OpClosedir h; OpInvalidate] st1 = Some (tt, st) ∧
    ¬ (destroyed st 0%nat ↔ unlinked st 0%nat ∧ unreferenced st 0%nat).
Proof.
  eexists _, _, _. split; [vm_compute; reflexivity|].
  split; [vm_compute; reflexivity|].
  split; [vm_compute; reflexivity|].
  intros [_ Hd].
  match type of Hd with ?P → _ => assert (HP : P) end.
  { split.
    - intros p Hp. discriminate Hp.
    - intros h c Hc. discriminate Hc. }
  apply Hd in HP. vm_compute in HP. discriminate.
Qed.

Lemma st_tree_ctx : ctxs st_tree !! 0%nat = Some ctx_tree.
Proof. vm_compute. reflexivity. Defined.

Lemma st_tree_ent : ents st_tree !! 0%nat = Some snap_tree.
Proof. vm_compute. reflexivity. Defined.

Lemma st_tree_db : dir_db st_tree !! "tree" = Some 0%nat.
Proof. vm_compute. reflexivity. Defined.

Lemma st_tree_size : vec_size (entries snap_tree) <= PTRDIFF_MAX.
Proof. vm_compute. discriminate. Defined.

Lemma st_tree_in_bounds : pos_in_bounds st_tree 0%nat.
Proof.
  exists ctx_tree, snap_tree.
  split; [exact st_tree_ctx|]. split; [exact st_tree_ent|].
  split; vm_compute; discriminate.
Defined.

(** C1: the filter accepts the names that start with [a]; the listing
    holds [b] and [c], and the count is 2. *)
Lemma scandir_filter_inverted_witness :
  ∃ namelist st',
    dircache_scandir w_tree "tree" (Some starts_with_a) None st_tree
      = Some ((vec_size namelist, Some namelist), st') ∧
    vec_size namelist = 2 ∧
    deref st' <$> namelist = [Some ent_b; Some ent_c].
Proof.
  destruct (scandir_filter_inverted w_tree "tree" st_tree 0%nat snap_tree
              starts_with_a None st_tree_db st_tree_ent)
    as (namelist & st' & Hrun & _ & Hlist).
  specialize (Hlist eq_refl).
  exists namelist, st'. split; [exact Hrun|]. split; [|exact Hlist].
  apply (f_equal length) in Hlist. rewrite length_fmap in Hlist.
  unfold vec_size. rewrite Hlist. reflexivity.
Defined.

(** C2: on a handle at position 0 of three records, seeking to the token
    3 leaves the position at 0. *)
Lemma seekdir_end_token_ignored_witness :
  dircache_seekdir 0%nat 3 st_tree = Some (tt, st_tree) ∧
  pos <$> ctxs st_tree !! 0%nat = Some 0.
Proof.
  split.
  - exact (seekdir_end_token_ignored st_tree 0%nat ctx_tree snap_tree
             st_tree_ctx st_tree_ent st_tree_size).
  - vm_compute. reflexivity.
Defined.

(** C2: the position saved at the end of the directory cannot be
    restored.  After the three records are read [dircache_telldir] returns
    3; after a rewind, seeking to 3 leaves the handle at the start and the
    next read returns the first record again. *)
Example seekdir_cannot_restore_end :
  ∃ st1 st2 st3 st4,
    readdir_n 3 0%nat st_tree
      = Some ([Some ent_a; Some ent_b; Some ent_c], st1) ∧
    dircache_telldir 0%nat st1 = Some (3, st1) ∧
    dircache_rewinddir 0%nat st1 = Some (tt, st2) ∧
    dircache_seekdir 0%nat 3 st2 = Some (tt, st3) ∧
    readdir_n 1 0%nat st3 = Some ([Some ent_a], st4).
Proof.
  eexists _, _, _, _.
  repeat split; vm_compute; reflexivity.
Qed.

(** C3: closing the only handle of [st_tree] and invalidating leaves the
    snapshot unlinked and unreferenced, with a reference count of 0, and
    still allocated. *)
Lemma snapshots_never_destroyed_witness :
  ∃ st', run [OpClosedir 0%nat; OpInvalidate] st_tree = Some (tt, st') ∧
         unlinked st' 0%nat ∧ unreferenced st' 0%nat ∧
         ¬ destroyed st' 0%nat ∧
         (∃ e', ents st' !! 0%nat = Some e' ∧ nref e' = 0 ∧
                entries e' = [ent_a; ent_b; ent_c]) ∧
         ¬ (destroyed st' 0%nat ↔ unlinked st' 0%nat ∧ unreferenced st' 0%nat).
Proof.
  assert (Hrun : run [OpClosedir 0%nat; OpInvalidate] st_tree = Some (tt, _))
    by (vm_compute; reflexivity).
  match type of Hrun with _ = Some (_, ?s) =>
    assert (Hu : unlinked s 0%nat) by (intros p Hp; discriminate Hp);
    assert (Hr : unreferenced s 0%nat) by (intros h c Hc; discriminate Hc);
    destruct (snapshots_never_destroyed [OpClosedir 0%nat; OpInvalidate]
                st_tree s 0%nat snap_tree Hrun st_tree_ent)
      as (Hlive & _ & Hdiv);
    exists s
  end.
  split; [exact Hrun|]. split; [exact Hu|]. split; [exact Hr|].
  split; [exact Hlive|]. split; [|exact (Hdiv Hu Hr)].
  eexists. split; [vm_compute; reflexivity|]. split; reflexivity.
Defined.

(** C4: invalidating under the handle of [st_tree], then opening the
    path again on the directory as it is then. *)
Lemma invalidate_spares_open_handles_witness :
  ∃ st1, dircache_invalidate st_tree = Some (tt, st1) ∧
    dir_db st1 = ∅ ∧ ctxs st1 = ctxs st_tree ∧ ents st1 = ents st_tree ∧
    (∀ n, ∃ l s s', readdir_n n 0%nat st1 = Some (l, s) ∧
                    readdir_n n 0%nat st_tree = Some (l, s')) ∧
    ∃ h' c' st2, dircache_opendir w_tree' "tree" st1 = Some (Some h', st2) ∧
      h' ≠ 0%nat ∧ ctxs st2 !! h' = Some c' ∧
      ents st_tree !! ent c' = None ∧ ent c' ≠ ent ctx_tree ∧
      dir_db st2 !! "tree" = Some (ent c') ∧
      snapshot_of st2 h' = Some (qsort by_name [ent_c; ent_b; ent_a]) ∧
      trace st2 = trace st1 ++ [EvFind "tree" Unlocked; EvOpendir "tree";
                                EvScandir "tree";
                                EvInsert "tree" WriteLocked] ∧
      (∀ n, ∃ l s s', readdir_n n 0%nat st2 = Some (l, s) ∧
                      readdir_n n 0%nat st_tree = Some (l, s')).
Proof.
  destruct (invalidate_spares_open_handles w_tree' "tree" st_tree 0%nat
              ctx_tree snap_tree st_tree_ctx st_tree_ent eq_refl)
    as (st1 & Hinv & Hdb & Hc & He & Hread & r & st2 & Hopen & _ & _ & _
        & Hpop & Hold).
  destruct (Hpop [ent_c; ent_b; ent_a] eq_refl eq_refl)
    as (h' & c' & -> & Hne & Hc' & Hnew & Hent & Hdb2 & Hsnap & Ht).
  exists st1. do 5 (split; [assumption|]).
  exists h', c', st2. repeat (split; [assumption|]). exact Hold.
Defined.

(** C5: open, read, rewind, list, open again. *)
Lemma cache_hit_avoids_rescan_witness :
  ∃ h1 st1 st2 h2 st3,
    dircache_opendir w_tree "tree" init_State = Some (Some h1, st1) ∧
    run [OpReaddir h1; OpRewinddir h1; OpScandir w_tree' "tree" None None] st1
      = Some (tt, st2) ∧
    dircache_opendir w_tree' "tree" st2 = Some (Some h2, st3) ∧
    trace st3 = trace st2 ++ [EvFind "tree" (db_lock st2)] ∧
    is_Some (snapshot_of st1 h1) ∧
    snapshot_of st3 h2 = snapshot_of st1 h1 ∧
    (∀ n, ∃ l s s', readdir_n n h2 st3 = Some (l, s) ∧
                    readdir_n n h1 st1 = Some (l, s')).
Proof.
  eexists _, _, _.
  assert (H1 : dircache_opendir w_tree "tree" init_State = Some (Some _, _))
    by (vm_compute; reflexivity).
  match type of H1 with
  | _ = Some (_, ?s) =>
      assert (H2 : run [OpReaddir 0%nat; OpRewinddir 0%nat;
                        OpScandir w_tree' "tree" None None] s = Some (tt, _))
        by (vm_compute; reflexivity)
  end.
  pose proof (cache_hit_avoids_rescan w_tree w_tree' "tree"
                [OpReaddir 0%nat; OpRewinddir 0%nat;
                 OpScandir w_tree' "tree" None None] _ _ _ _
                H1 eq_refl H2) as (h2 & st3 & H3).
  exists h2, st3. split; [exact H1|]. split; [exact H2|]. exact H3.
Defined.

(** C6: the three records of [st_tree], then null for ever. *)
Lemma readdir_sequential_exhaustion_witness :
  ∃ st', readdir_n 3 0%nat st_tree
           = Some ([Some ent_a; Some ent_b; Some ent_c], st') ∧
         ctxs st' !! 0%nat = Some {| pos := 3; ent := 0%nat |} ∧
         (∀ k, readdir_n k 0%nat st' = Some (replicate k None, st')).
Proof.
  exact (readdir_sequential_exhaustion st_tree 0%nat 0%nat snap_tree
           st_tree_ctx st_tree_ent st_tree_size).
Defined.

(** C7: a path that does not exist, on the empty store. *)
Lemma failed_scan_leaves_store_unchanged_witness :
  (∃ st', dircache_opendir w_tree "/does/not/exist" init_State
            = Some (None, st') ∧
          dir_db st' = dir_db init_State ∧ ents st' = ents init_State ∧
          ctxs st' = ctxs init_State) ∧
  (∃ st', dircache_scandir w_tree "/does/not/exist" None (Some by_name)
            init_State = Some ((-1, None), st') ∧
          dir_db st' = dir_db init_State ∧ ents st' = ents init_State ∧
          ctxs st' = ctxs init_State).
Proof.
  apply (failed_scan_leaves_store_unchanged w_tree "/does/not/exist"
           init_State None (Some by_name)).
  - vm_compute. reflexivity.
  - left. vm_compute. reflexivity.
Defined.

(** C9: the first open on the empty store. *)
Lemma lookup_bypasses_lock_witness :
  ∃ r st', dircache_opendir w_tree "tree" init_State = Some (r, st') ∧
    (∃ t, trace st' = trace init_State ++ EvFind "tree" Unlocked :: t) ∧
    lock_disciplined (trace st') = false.
Proof.
  eexists _, _.
  assert (H1 : dircache_opendir w_tree "tree" init_State = Some (_, _))
    by (vm_compute; reflexivity).
  split; [exact H1|].
  exact (lookup_bypasses_lock w_tree "tree" init_State _ _ eq_refl H1).
Defined.

(** C8: the directory ["tree"] populated twice, from scans that yield
    its entries in different orders. *)
Lemma population_ordered_by_name_witness :
  ∃ h1 st1' h2 st2' l,
    dircache_opendir w_tree "tree" init_State = Some (Some h1, st1') ∧
    snapshot_of st1' h1 = Some l ∧
    dircache_opendir w_tree' "tree" init_State = Some (Some h2, st2') ∧
    snapshot_of st2' h2 = Some l ∧
    StronglySorted (cmp_le by_name) l ∧ l ≡ₚ [ent_b; ent_a; ent_c].
Proof.
  destruct (population_ordered_by_name w_tree w_tree' "tree" "tree"
              init_State init_State [ent_b; ent_a; ent_c]
              [ent_c; ent_b; ent_a]
              eq_refl eq_refl eq_refl eq_refl eq_refl eq_refl eq_refl eq_refl)
    as (h1 & st1' & l1 & h2 & st2' & l2 & H1 & S1 & H2 & S2 & Hs1 & Hp1 & _
        & _ & Heq).
  assert (Hl : l1 = l2).
  { apply Heq.
    - etrans; [apply perm_skip, perm_swap | apply perm_swap].
    - intros x y Hx Hy Hxy. set_unfold.
      destruct Hx as [->|[->|[->|[]]]]; destruct Hy as [->|[->|[->|[]]]];
        first [reflexivity | vm_compute in Hxy; discriminate Hxy]. }
  exists h1, st1', h2, st2', l1.
  split; [exact H1|]. split; [exact S1|]. split; [exact H2|].
  split; [by rewrite Hl|]. split; [exact Hs1|exact Hp1].
Defined.

(** C10: the handle of [st_tree], a new handle on its snapshot, and one
    call of each cursor operation. *)
Lemma handle_position_in_bounds_witness :
  (∃ h st', dc_build_around_ent 0%nat st_tree = Some (h, st') ∧
            ctxs st_tree !! h = None ∧ pos_in_bounds st' h) ∧
  (∃ r st', dircache_readdir 0%nat st_tree = Some (r, st') ∧
            pos_in_bounds st' 0%nat ∧
            (∀ p, r = Some p → is_Some (deref st' p))) ∧
  (∃ st', dircache_rewinddir 0%nat st_tree = Some (tt, st') ∧
          pos_in_bounds st' 0%nat) ∧
  (∃ st', dircache_seekdir 0%nat (-1) st_tree = Some (tt, st') ∧
          pos_in_bounds st' 0%nat).
Proof.
  destruct handle_position_in_bounds as (Hnew & Hread & Hrew & Hseek).
  split; [exact (Hnew st_tree 0%nat (ex_intro _ _ st_tree_ent))|].
  split.
  { destruct (Hread st_tree 0%nat st_tree_in_bounds)
      as (r & st' & Hrun & Hall & Hidx).
    exists r, st'. split; [exact Hrun|].
    split; [exact (Hall 0%nat st_tree_in_bounds)|].
    intros p Hp. destruct (Hidx p Hp) as (c & e & _ & _ & _ & _ & Hd).
    exact Hd. }
  split.
  - destruct (Hrew st_tree 0%nat st_tree_in_bounds) as (st' & Hrun & Hall).
    exists st'. split; [exact Hrun|exact (Hall 0%nat st_tree_in_bounds)].
  - destruct (Hseek st_tree 0%nat (-1) st_tree_in_bounds)
      as (st' & Hrun & Hall).
    exists st'. split; [exact Hrun|exact (Hall 0%nat st_tree_in_bounds)].
Defined.

(** * Further properties *)

(** ** Counting the handles on a snapshot *)

Lemma count_on_insert_fresh (m : gmap addr dircontext_t) h c a :
  m !! h = None →
  count_on (<[h := c]> m) a
    = if decide (ent c = a) then S (count_on m a) else count_on m a.
Proof.
  intros Hh. unfold count_on. rewrite map_filter_insert. simpl.
  destruct (decide (ent c = a)) as [Heq|Hne].
  - rewrite map_size_insert_None; [done|].
    apply map_lookup_filter_None. by left.
  - by rewrite delete_id.
Qed.

Lemma count_on_delete (m : gmap addr dircontext_t) h c a :
  m !! h = Some c →
  count_on m a
    = if decide (ent c = a) then S (count_on (delete h m) a)
      else count_on (delete h m) a.
Proof.
  intros Hh. rewrite <- (insert_delete_id m h c) at 1 by done.
  apply count_on_insert_fresh, lookup_delete_eq.
Qed.

Lemma count_on_move (m : gmap addr dircontext_t) h c p a :
  m !! h = Some c →
  count_on (<[h := {| pos := p; ent := ent c |}]> m) a = count_on m a.
Proof.
  intros Hh. rewrite (count_on_delete m h c a Hh).
  rewrite <- (insert_delete_eq m).
  by rewrite count_on_insert_fresh by apply lookup_delete_eq.
Qed.

Lemma count_on_unallocated st a :
  (∀ h c, ctxs st !! h = Some c → is_Some (ents st !! ent c)) →
  ents st !! a = None → handles_on st a = O.
Proof.
  intros Hh Ha. unfold handles_on, count_on.
  apply map_size_empty_iff, map_empty. intros h.
  apply map_lookup_filter_None. right. intros c Hc Heq. simpl in Heq.
  destruct (Hh h c Hc) as [e He]. congruence.
Qed.

(** ** Every defined call ends in one of the listed outcomes *)

Section Outcome.
Context `{L : Libc}.

Lemma bind_Some {A B : Type} (m : M A) (k : A → M B) st b st' :
  bind m k st = Some (b, st') →
  ∃ a st1, m st = Some (a, st1) ∧ k a st1 = Some (b, st').
Proof.
  unfold bind. destruct (m st) as [[a st1]|]; [|done]. intros Hk.
  by exists a, st1.
Qed.

Lemma load_ctx_Some h st c st' :
  load_ctx h st = Some (c, st') → ctxs st !! h = Some c ∧ st' = st.
Proof.
  unfold load_ctx. destruct (ctxs st !! h); [|done]. by intros [= -> ->].
Qed.

Lemma load_ent_Some a st e st' :
  load_ent a st = Some (e, st') → ents st !! a = Some e ∧ st' = st.
Proof.
  unfold load_ent. destruct (ents st !! a); [|done]. by intros [= -> ->].
Qed.

Lemma scandir_state w dirp filter compare st r st' :
  dircache_scandir w dirp filter compare st = Some (r, st') →
  ∃ ctx, dc_find_or_populate w dirp st = Some (ctx, st').
Proof.
  intros Hrun. apply bind_Some in Hrun as (ctx & st1 & Hpop & Hrest).
  exists ctx. destruct ctx as [h|].
  - apply bind_Some in Hrest as (c & s2 & Hc & Hrest).
    apply load_ctx_Some in Hc as [_ ->].
    apply bind_Some in Hrest as (e & s3 & He & Hrest).
    apply load_ent_Some in He as [_ ->].
    by injection Hrest as _ <-.
  - by injection Hrest as _ <-.
Qed.

Lemma exec_outcome_of o st st' :
  exec o st = Some (tt, st') → exec_outcome o st st'.
Proof.
  intros Hrun. destruct o as [w path|h|h|h|h loc|h|w dirp filter compare|];
    simpl in Hrun.
  - apply bind_Some in Hrun as (r & st1 & Hpop & [= <-]).
    apply find_or_populate_outcome in Hpop. by econstructor.
  - apply bind_Some in Hrun as (r & st1 & Hrd & [= <-]).
    pose proof Hrd as Hrd'.
    apply bind_Some in Hrd' as (c & s & Hc & Hrest).
    apply load_ctx_Some in Hc as [Hc ->].
    apply bind_Some in Hrest as (e & s & He & _).
    apply load_ent_Some in He as [He _].
    rewrite (readdir_spec _ _ _ _ Hc He) in Hrd.
    destruct (pos c >=? vec_size (entries e)) eqn:Hge;
      rewrite Z.geb_leb in Hge; injection Hrd as _ <-.
    + apply Z.leb_le in Hge. by econstructor.
    + apply Z.leb_gt in Hge. by econstructor.
  - pose proof Hrun as Hrd'.
    apply bind_Some in Hrd' as (c & s & Hc & _).
    apply load_ctx_Some in Hc as [Hc _].
    rewrite (rewinddir_spec _ _ _ Hc) in Hrun. injection Hrun as <-.
    by econstructor.
  - apply bind_Some in Hrun as (r & st1 & Hrd & [= <-]).
    apply bind_Some in Hrd as (c & s & Hc & [= _ <-]).
    apply load_ctx_Some in Hc as [Hc ->]. by econstructor.
  - pose proof Hrun as Hrd'.
    apply bind_Some in Hrd' as (c & s & Hc & Hrest).
    apply load_ctx_Some in Hc as [Hc ->].
    apply bind_Some in Hrest as (e & s & He & _).
    apply load_ent_Some in He as [He _].
    rewrite (seekdir_spec _ _ _ _ loc Hc He) in Hrun.
    destruct (to_size_t loc >=? vec_size (entries e)) eqn:Hge;
      rewrite Z.geb_leb in Hge; injection Hrun as <-.
    + apply Z.leb_le in Hge. by econstructor.
    + apply Z.leb_gt in Hge. by econstructor.
  - pose proof Hrun as Hrd'.
    apply bind_Some in Hrd' as (c & s & Hc & Hrest).
    apply load_ctx_Some in Hc as [Hc ->].
    apply bind_Some in Hrest as (u & s & Hadd & _).
    apply bind_Some in Hadd as (e & s' & He & _).
    apply load_ent_Some in He as [He _].
    rewrite (closedir_spec _ _ _ _ Hc He) in Hrun. injection Hrun as <-.
    by econstructor.
  - apply bind_Some in Hrun as (r & st1 & Hsc & [= <-]).
    apply scandir_state in Hsc as (ctx & Hpop).
    apply find_or_populate_outcome in Hpop. by econstructor.
  - destruct (db_lock st) eqn:Hlk.
    + rewrite (invalidate_spec _ Hlk) in Hrun. injection Hrun as <-.
      by constructor.
    + unfold dircache_invalidate, write_lock, bind in Hrun.
      by rewrite Hlk in Hrun.
    + unfold dircache_invalidate, write_lock, bind in Hrun.
      by rewrite Hlk in Hrun.
Qed.

End Outcome.

(** ** Consistency is kept *)

Lemma init_State_consistent : consistent init_State.
Proof. split; intros ? ? H; simpl in H; by rewrite lookup_empty in H. Qed.

Lemma consistent_frame st st' :
  ents st' = ents st → ctxs st' = ctxs st →
  (∀ p a, dir_db st' !! p = Some a → dir_db st !! p = Some a) →
  consistent st → consistent st'.
Proof.
  intros He Hc Hdb [Hh Hd Hn]. split.
  - intros h c. rewrite Hc, He. apply Hh.
  - intros p a Hp. rewrite He. eapply Hd, Hdb, Hp.
  - intros a e. unfold handles_on. rewrite He, Hc. apply Hn.
Qed.

Lemma consistent_move h c p st :
  ctxs st !! h = Some c → consistent st → consistent (move_to h c p st).
Proof.
  intros Hc [Hh Hd Hn]. split; simpl.
  - intros h' c' Hc'. destruct (decide (h = h')) as [<-|Hne].
    + rewrite lookup_insert_eq in Hc'. injection Hc' as <-. simpl. eauto.
    + rewrite lookup_insert_ne in Hc' by done. eauto.
  - done.
  - intros a e He. unfold handles_on. simpl.
    rewrite (count_on_move _ _ _ _ _ Hc). by apply Hn.
Qed.

Lemma consistent_build st a e :
  ents st !! a = Some e → consistent st →
  consistent (set_ents <[a := bump e]>
                (set_ctxs <[fresh (dom (ctxs st)) :=
                              {| pos := 0; ent := a |}]> st)).
Proof.
  intros He [Hh Hd Hn]. pose proof (fresh_ctx_unused st) as Hfresh.
  split; simpl.
  - intros h c Hc. apply lookup_insert_is_Some'. 
    destruct (decide (fresh (dom (ctxs st)) = h)) as [<-|Hne].
    + rewrite lookup_insert_eq in Hc. injection Hc as <-. by left.
    + rewrite lookup_insert_ne in Hc by done. right. eauto.
  - intros p a' Hp. apply lookup_insert_is_Some'. right. eauto.
  - intros a' e' He'. unfold handles_on. simpl.
    rewrite count_on_insert_fresh by done. simpl.
    destruct (decide (a = a')) as [<-|Hne].
    + rewrite lookup_insert_eq in He'. injection He' as <-. simpl.
      rewrite (Hn a e He). unfold handles_on.
      rewrite Zplus_mod_idemp_l. f_equal. lia.
    + rewrite lookup_insert_ne in He' by done. by apply Hn.
Qed.

Lemma consistent_close st h c e :
  ctxs st !! h = Some c → ents st !! ent c = Some e → consistent st →
  consistent (set_ctxs (delete h) (set_ents <[ent c := unbump e]> st)).
Proof.
  intros Hc He [Hh Hd Hn]. split; simpl.
  - intros h' c' Hc'. apply lookup_insert_is_Some'. right.
    apply lookup_delete_Some in Hc' as [_ Hc']. eauto.
  - intros p a Hp. apply lookup_insert_is_Some'. right. eauto.
  - intros a e' He'. unfold handles_on. simpl.
    pose proof (count_on_delete (ctxs st) h c a Hc) as Hcount.
    destruct (decide (ent c = a)) as [<-|Hne].
    + rewrite lookup_insert_eq in He'. injection He' as <-. simpl.
      rewrite (Hn (ent c) e He). unfold handles_on. rewrite Hcount.
      rewrite Zplus_mod_idemp_l. f_equal. lia.
    + rewrite lookup_insert_ne in He' by done.
      rewrite (Hn a e' He'). unfold handles_on. by rewrite Hcount.
Qed.

Section Consistency.
Context `{L : Libc}.

Lemma consistent_populate_outcome w path st r st' :
  populate_outcome w path st r st' → consistent st → consistent st'.
Proof.
  intros Hout Hcons.
  destruct Hout as [a e Hdb He|Hdb Hw|Hdb Hw Hl
                    |raw st' Hdb Hlk Hw Hl Hdb' Hlk' He' Hc' Ht'].
  - apply (consistent_build (emit (EvFind path (db_lock st)) st) a e He).
    by apply (consistent_frame st).
  - by apply (consistent_frame st).
  - by apply (consistent_frame st).
  - destruct Hcons as [Hh Hd Hn].
    pose proof (fresh_ctx_unused st) as Hfc.
    pose proof (fresh_ent_unused st) as Hfe.
    split.
    + intros h c. rewrite Hc', He'. intros Hc.
      apply lookup_insert_is_Some'.
      destruct (decide (fresh (dom (ctxs st)) = h)) as [<-|Hne].
      * rewrite lookup_insert_eq in Hc. injection Hc as <-. by left.
      * rewrite lookup_insert_ne in Hc by done. right. eauto.
    + intros p a. rewrite Hdb', He'. intros Hp.
      apply lookup_insert_is_Some'.
      destruct (decide (path = p)) as [<-|Hne].
      * rewrite lookup_insert_eq in Hp. injection Hp as <-. by left.
      * rewrite lookup_insert_ne in Hp by done. right. eauto.
    + intros a e. unfold handles_on. rewrite He', Hc'.
      rewrite count_on_insert_fresh by done. simpl. intros He.
      destruct (decide (fresh (dom (ents st)) = a)) as [<-|Hne].
      * rewrite lookup_insert_eq in He. injection He as <-. simpl.
        fold (handles_on st (fresh (dom (ents st)))).
        by rewrite (count_on_unallocated st _ Hh Hfe).
      * rewrite lookup_insert_ne in He by done. by apply Hn.
Qed.

Lemma consistent_exec_outcome o st st' :
  exec_outcome o st st' → consistent st → consistent st'.
Proof.
  intros Hout Hcons.
  destruct Hout;
    first [ done
          | by eapply consistent_populate_outcome
          | by apply consistent_move
          | by apply consistent_close
          | by apply (consistent_frame st) ].
Qed.

(** X1.  From a consistent state, in particular from the empty cache,
    every sequence of calls that is defined ends in a consistent state:
    the counter of each snapshot is the number of open handles on it
    (modulo 2^32), and no handle and no entry of the map points to a
    snapshot that is not allocated. *)
Theorem refcount_counts_open_handles ops : ∀ st st',
  consistent st → run ops st = Some (tt, st') →
  consistent st' ∧
  ∀ a e, ents st' !! a = Some e →
    nref e = Z.of_nat (handles_on st' a) mod UINT32_modulus.
Proof.
  induction ops as [|o ops IH]; intros st st' Hcons Hrun.
  - injection Hrun as <-. split; [done|apply Hcons].
  - simpl in Hrun. apply bind_Some in Hrun as ([] & st1 & Ho & Hrest).
    apply (IH st1); [|done].
    eapply consistent_exec_outcome; [by apply exec_outcome_of|done].
Qed.

End Consistency.

(** ** The lock is given back, and no call within the cache is undefined *)

#[local] Instance lock_returned_preorder : PreOrder lock_returned.
Proof.
  split.
  - intros st Hlk. split; [done|]. exists []. by rewrite app_nil_r.
  - intros s1 s2 s3 H12 H23 Hlk.
    destruct (H12 Hlk) as (Hlk2 & t1 & Ht1 & Hw1).
    destruct (H23 Hlk2) as (Hlk3 & t2 & Ht2 & Hw2).
    split; [done|]. exists (t1 ++ t2).
    rewrite Ht2, Ht1, app_assoc, forallb_app, Hw1, Hw2. done.
Qed.

Lemma lock_returned_same st st' :
  db_lock st' = db_lock st → trace st' = trace st → lock_returned st st'.
Proof.
  intros Hl Ht Hlk. split; [congruence|]. exists []. by rewrite app_nil_r.
Qed.

Section Progress.
Context `{L : Libc}.

Lemma lock_returned_exec_outcome o st st' :
  exec_outcome o st st' → lock_returned st st'.
Proof.
  intros Hout.
  assert (Hpop : ∀ w path r, populate_outcome w path st r st' →
                             lock_returned st st').
  { intros w path r Hp Hlk.
    destruct Hp as [a e Hdb He|Hdb Hw|Hdb Hw Hl
                    |raw st' Hdb _ Hw Hl Hdb' Hlk' He' Hc' Ht'];
      simpl; rewrite ?Hlk.
    + split; [done|]. by exists [EvFind path Unlocked].
    + split; [done|]. exists [EvFind path Unlocked; EvOpendir path].
      by rewrite <- app_assoc.
    + split; [done|].
      exists [EvFind path Unlocked; EvOpendir path; EvScandir path].
      by rewrite <- !app_assoc.
    + split; [done|]. eexists. by rewrite Ht'. }
  destruct Hout;
    first [ by eapply Hpop
          | by apply lock_returned_same
          | idtac ].
  intros _. split; [done|]. by exists [EvClear WriteLocked].
Qed.

Lemma exec_defined o st :
  consistent st → db_lock st = Unlocked → op_live st o →
  ∃ st', exec o st = Some (tt, st').
Proof.
  intros Hcons Hlk Hlive.
  destruct o as [w path|h|h|h|h loc|h|w dirp filter compare|];
    simpl in Hlive |- *.
  - destruct Hlive as [a Hdb].
    destruct (cons_db st Hcons path a Hdb) as [e He].
    unfold dircache_opendir, bind.
    rewrite (find_or_populate_hit _ _ _ _ _ Hdb He). by eexists.
  - destruct Hlive as [c Hc].
    destruct (cons_handles st Hcons h c Hc) as [e He].
    unfold bind. rewrite (readdir_spec _ _ _ _ Hc He).
    destruct (pos c >=? vec_size (entries e)); by eexists.
  - destruct Hlive as [c Hc]. rewrite (rewinddir_spec _ _ _ Hc). by eexists.
  - destruct Hlive as [c Hc]. exists st.
    unfold dircache_telldir, bind, load_ctx. by rewrite Hc.
  - destruct Hlive as [c Hc].
    destruct (cons_handles st Hcons h c Hc) as [e He].
    rewrite (seekdir_spec _ _ _ _ loc Hc He).
    destruct (to_size_t loc >=? vec_size (entries e)); by eexists.
  - destruct Hlive as [c Hc].
    destruct (cons_handles st Hcons h c Hc) as [e He].
    rewrite (closedir_spec _ _ _ _ Hc He). by eexists.
  - destruct Hlive as [a Hdb].
    destruct (cons_db st Hcons dirp a Hdb) as [e He].
    eexists. unfold dircache_scandir, bind at 1, bind at 1.
    rewrite (find_or_populate_hit w _ _ _ _ Hdb He).
    unfold load_ctx, load_ent, bind, ret. simpl.
    rewrite !lookup_insert_eq. simpl. by rewrite lookup_insert_eq.
  - rewrite (invalidate_spec _ Hlk). by eexists.
Qed.

(** X2.  In a consistent state with the lock free, a call that stays
    within the cache is defined: a call on an open handle, a call of
    [dircache_invalidate], and a call of [dircache_opendir] or
    [dircache_scandir] on a path that is cached.  It dereferences no
    dangling pointer and does not block, and it ends in a consistent state
    with the lock free again.  Nothing is said of a call that populates
    the cache. *)
Theorem call_within_cache_defined o st :
  consistent st → db_lock st = Unlocked → op_live st o →
  ∃ st', exec o st = Some (tt, st') ∧ consistent st' ∧
         db_lock st' = Unlocked.
Proof.
  intros Hcons Hlk Hlive.
  destruct (exec_defined o st Hcons Hlk Hlive) as [st' Hrun].
  exists st'. split; [done|].
  apply exec_outcome_of in Hrun. split.
  - by eapply consistent_exec_outcome.
  - by apply (lock_returned_exec_outcome _ _ _ Hrun).
Qed.

(** X3.  A sequence of calls that starts with the store lock free ends
    with the lock free, and every insertion into the map and every clear
    of the map made on the way was made with the lock held in exclusive
    mode. *)
Theorem run_returns_lock ops : ∀ st st',
  db_lock st = Unlocked → run ops st = Some (tt, st') →
  db_lock st' = Unlocked ∧
  ∃ t, trace st' = trace st ++ t ∧ forallb write_disciplined t = true.
Proof.
  induction ops as [|o ops IH]; intros st st' Hlk Hrun.
  - injection Hrun as <-. by apply (reflexivity (R := lock_returned) st).
  - simpl in Hrun. apply bind_Some in Hrun as ([] & st1 & Ho & Hrest).
    apply exec_outcome_of, lock_returned_exec_outcome in Ho.
    assert (H1 : lock_returned st1 st') by (intros Hlk1; by apply (IH st1)).
    by apply (transitivity (R := lock_returned) Ho H1).
Qed.

End Progress.

(** ** Cursors *)

(** Reading [|l2|] records on from position [|l1|] of a snapshot
    [l1 ++ l2 ++ l3]. *)
Lemma readdir_n_segment (l2 : list dirent) : ∀ (l1 l3 : list dirent) st h a e,
  entries e = l1 ++ l2 ++ l3 →
  ctxs st !! h = Some {| pos := vec_size l1; ent := a |} →
  ents st !! a = Some e →
  vec_size (entries e) <= PTRDIFF_MAX →
  ∃ st', readdir_n (length l2) h st = Some (Some <$> l2, st') ∧
         ctxs st' = <[h := {| pos := vec_size l1 + vec_size l2; ent := a |}]>
                      (ctxs st) ∧
         ents st' = ents st ∧ dir_db st' = dir_db st ∧
         db_lock st' = db_lock st ∧ trace st' = trace st.
Proof.
  induction l2 as [|d l2 IH]; intros l1 l3 st h a e Hl Hc He Hmax.
  - exists st. split; [done|]. split; [|done].
    unfold vec_size at 2. simpl. rewrite Z.add_0_r. by rewrite insert_id.
  - simpl in Hl.
    assert (Hlen : vec_size (entries e)
                   = vec_size l1 + 1 + vec_size l2 + vec_size l3).
    { rewrite Hl. unfold vec_size. rewrite length_app. simpl.
      rewrite length_app. lia. }
    pose proof (vec_size_nonneg l1). pose proof (vec_size_nonneg l2).
    pose proof (vec_size_nonneg l3).
    simpl. unfold bind at 1.
    rewrite (readdir_spec _ _ _ _ Hc He). simpl.
    destruct (vec_size l1 >=? vec_size (entries e)) eqn:Hge.
    { rewrite Z.geb_leb in Hge. apply Z.leb_le in Hge. lia. }
    unfold bind at 1. unfold deref, deref_in. simpl. rewrite He.
    destruct (vec_size l1 <? 0) eqn:Hneg; [lia|].
    replace (entries e !! Z.to_nat (vec_size l1)) with (Some d); last first.
    { rewrite Hl. unfold vec_size. rewrite Nat2Z.id.
      by rewrite list_lookup_middle. }
    rewrite to_size_t_small by (unfold SIZE_MAX_plus_1, PTRDIFF_MAX in *; lia).
    destruct (IH (l1 ++ [d]) l3
                (set_ctxs <[h := {| pos := vec_size l1 + 1; ent := a |}]> st)
                h a e) as (st' & Hrun & Hc' & He' & Hdb & Hlk & Htr).
    + by rewrite <- app_assoc.
    + simpl. rewrite lookup_insert_eq. f_equal. f_equal.
      unfold vec_size. rewrite length_app. simpl. lia.
    + done.
    + done.
    + exists st'. unfold bind. rewrite Hrun. unfold ret.
      split; [done|]. split; [|done].
      rewrite Hc'. simpl. rewrite insert_insert_eq. f_equal. f_equal.
      unfold vec_size. rewrite length_app. simpl. lia.
Qed.

(** X4.  Whatever the position of a handle, [dircache_rewinddir] followed
    by as many reads as the snapshot has records returns all the records,
    in snapshot order, and one more read returns null. *)
Theorem rewinddir_rereads_everything st h c e :
  ctxs st !! h = Some c → ents st !! ent c = Some e →
  vec_size (entries e) <= PTRDIFF_MAX →
  ∃ st1 st2,
    dircache_rewinddir h st = Some (tt, st1) ∧
    readdir_n (length (entries e)) h st1 = Some (Some <$> entries e, st2) ∧
    dircache_readdir h st2 = Some (None, st2).
Proof.
  intros Hc He Hmax. rewrite (rewinddir_spec _ _ _ Hc).
  destruct (readdir_n_segment (entries e) [] []
              (set_ctxs <[h := {| pos := 0; ent := ent c |}]> st) h (ent c) e)
    as (st2 & Hrun & Hc2 & He2 & _).
  - by rewrite app_nil_r.
  - simpl. apply lookup_insert_eq.
  - done.
  - done.
  - eexists _, st2. split; [done|]. split; [done|].
    assert (Hc2' : ctxs st2 !! h
                   = Some {| pos := vec_size (entries e); ent := ent c |}).
    { rewrite Hc2. rewrite lookup_insert_eq. f_equal. }
    rewrite (readdir_spec st2 h _ e Hc2'); [|simpl; by rewrite He2].
    simpl. destruct (vec_size (entries e) >=? vec_size (entries e)) eqn:Hge;
      [done|].
    rewrite Z.geb_leb in Hge. apply Z.leb_gt in Hge. lia.
Qed.

(** X5.  After [k] reads from the start of a snapshot that has at least
    [k] records, the reads have returned its first [k] records and
    [dircache_telldir] returns [k]. *)
Theorem telldir_counts_reads st h a e (k : nat) :
  ctxs st !! h = Some {| pos := 0; ent := a |} → ents st !! a = Some e →
  vec_size (entries e) <= PTRDIFF_MAX →
  (k <= length (entries e))%nat →
  ∃ st', readdir_n k h st = Some (Some <$> take k (entries e), st') ∧
         dircache_telldir h st' = Some (Z.of_nat k, st').
Proof.
  intros Hc He Hmax Hk.
  destruct (readdir_n_segment (take k (entries e)) [] (drop k (entries e))
              st h a e) as (st' & Hrun & Hc' & _); try done.
  { simpl. by rewrite take_drop. }
  rewrite length_take_le in Hrun by done.
  exists st'. split; [done|].
  unfold dircache_telldir, bind, load_ctx, ret.
  rewrite Hc', lookup_insert_eq. simpl.
  replace (vec_size [] + vec_size (take k (entries e))) with (Z.of_nat k)
    by (unfold vec_size; rewrite length_take_le by done; simpl; lia).
  unfold to_long. unfold vec_size in Hmax.
  destruct (Z.of_nat k <=? PTRDIFF_MAX) eqn:Hle; [done|].
  apply Z.leb_gt in Hle. lia.
Qed.

(** X6.  A token that [dircache_telldir] returns while the handle is not
    at the end can be restored: in any later state in which the handle is
    open on the same snapshot, [dircache_seekdir] to the token followed by
    a read returns the record that a read at the time of the
    [dircache_telldir] returns. *)
Theorem telldir_seekdir_round_trip st st' h c c' e e' :
  ctxs st !! h = Some c → ents st !! ent c = Some e →
  vec_size (entries e) <= PTRDIFF_MAX →
  0 <= pos c < vec_size (entries e) →
  ctxs st' !! h = Some c' → ent c' = ent c →
  ents st' !! ent c = Some e' → entries e' = entries e →
  ∃ p d st1 st2 st3,
    dircache_telldir h st = Some (pos c, st) ∧
    dircache_readdir h st = Some (Some p, st1) ∧ deref st1 p = Some d ∧
    dircache_seekdir h (pos c) st' = Some (tt, st2) ∧
    dircache_readdir h st2 = Some (Some p, st3) ∧ deref st3 p = Some d.
Proof.
  intros Hc He Hmax Hpos Hc' Hent He' Hentries.
  assert (Hd : is_Some (entries e !! Z.to_nat (pos c))).
  { apply lookup_lt_is_Some. unfold vec_size in Hpos. lia. }
  destruct Hd as [d Hd].
  assert (Hguard : ∀ z, 0 <= z < vec_size (entries e) →
                        (z >=? vec_size (entries e)) = false).
  { intros z Hz. rewrite Z.geb_leb. apply Z.leb_gt. lia. }
  exists {| p_ent := ent c; p_idx := pos c |}, d.
  rewrite (readdir_spec _ _ _ _ Hc He), (Hguard _ Hpos).
  rewrite <- Hent in He'.
  rewrite (seekdir_inside st' h c' e' (pos c) Hc' He')
    by (rewrite Hentries; done).
  eexists _, _, _. split.
  { unfold dircache_telldir, bind, load_ctx, ret. rewrite Hc.
    unfold to_long. destruct (pos c <=? PTRDIFF_MAX) eqn:Hle; [done|].
    apply Z.leb_gt in Hle. lia. }
  split; [done|]. split.
  { unfold deref, deref_in. simpl. rewrite He.
    destruct (pos c <? 0) eqn:Hneg; [lia|done]. }
  split; [done|]. split.
  - erewrite readdir_spec; [|simpl; apply lookup_insert_eq|simpl; exact He'].
    simpl. rewrite Hentries, (Hguard _ Hpos). by rewrite Hent.
  - unfold deref, deref_in. simpl. rewrite <- Hent, He', Hentries.
    destruct (pos c <? 0) eqn:Hneg; [lia|done].
Qed.

(** ** The bulk listing and the map *)

Lemma accumulate_all a (l : list dirent) : ∀ pre all,
  all = pre ++ l →
  deref_in all <$> accumulate None a (vec_size pre) l = Some <$> l.
Proof.
  induction l as [|d l IH]; intros pre all Hall; [done|].
  assert (Hnext : vec_size pre + 1 = vec_size (pre ++ [d])).
  { unfold vec_size. rewrite length_app. simpl. lia. }
  simpl. f_equal.
  - unfold deref_in. simpl. pose proof (vec_size_nonneg pre).
    destruct (vec_size pre <? 0) eqn:Hneg; [lia|].
    rewrite Hall. unfold vec_size. rewrite Nat2Z.id.
    by rewrite list_lookup_middle.
  - rewrite Hnext. apply IH. by rewrite <- app_assoc.
Qed.

Lemma read_from_rest (rest : list dirent) : ∀ (pre : list dirent) (k : nat),
  vec_size (pre ++ rest) <= PTRDIFF_MAX →
  read_from (pre ++ rest) (vec_size pre) (length rest + k)
    = (Some <$> rest) ++ replicate k None.
Proof.
  induction rest as [|d rest IH]; intros pre k Hmax.
  - rewrite app_nil_r. simpl. induction k as [|k IHk]; [done|]. simpl.
    destruct (vec_size pre >=? vec_size pre) eqn:Hge.
    + by rewrite IHk.
    + rewrite Z.geb_leb in Hge. apply Z.leb_gt in Hge. lia.
  - assert (Hlen : vec_size (pre ++ d :: rest)
                   = vec_size pre + 1 + vec_size rest).
    { unfold vec_size. rewrite length_app. simpl. lia. }
    pose proof (vec_size_nonneg pre). pose proof (vec_size_nonneg rest).
    simpl. destruct (vec_size pre >=? vec_size (pre ++ d :: rest)) eqn:Hge.
    { rewrite Z.geb_leb in Hge. apply Z.leb_le in Hge. lia. }
    unfold deref_in at 1. simpl.
    destruct (vec_size pre <? 0) eqn:Hneg; [lia|].
    unfold vec_size at 1. rewrite Nat2Z.id, list_lookup_middle by done.
    f_equal.
    rewrite to_size_t_small by (unfold SIZE_MAX_plus_1, PTRDIFF_MAX in *; lia).
    replace (vec_size pre + 1) with (vec_size (pre ++ [d]))
      by (unfold vec_size; rewrite length_app; simpl; lia).
    replace (pre ++ d :: rest) with ((pre ++ [d]) ++ rest)
      by (by rewrite <- app_assoc).
    apply IH. by rewrite <- app_assoc.
Qed.

Lemma accumulate_None_size a (l : list dirent) : ∀ i,
  vec_size (accumulate None a i l) = vec_size l.
Proof.
  induction l as [|d l IH]; intros i; [done|].
  specialize (IH (i + 1)). unfold vec_size in *. simpl. lia.
Qed.

Section Listing.
Context `{L : Libc}.

(** X7.  Without a filter [dircache_scandir] lists every record of the
    snapshot that [dircache_opendir] of the path would hand out: the
    return value is the number of records, the list designates the
    records in snapshot order when there is no comparator, and a
    rearrangement of them when there is one. *)
Theorem scandir_unfiltered_lists_all w dirp compare st h st1 :
  dircache_opendir w dirp st = Some (Some h, st1) →
  ∃ l namelist,
    snapshot_of st1 h = Some l ∧
    dircache_scandir w dirp None compare st
      = Some ((vec_size l, Some namelist), st1) ∧
    deref st1 <$> namelist ≡ₚ Some <$> l ∧
    (compare = None → deref st1 <$> namelist = Some <$> l).
Proof.
  intros Hopen.
  destruct (opendir_success _ _ _ _ _ Hopen) as (a & e & _ & He & Hc).
  unfold dircache_opendir in Hopen.
  exists (entries e). unfold dircache_scandir, bind at 1. rewrite Hopen.
  unfold load_ctx, load_ent, bind, ret. rewrite Hc. simpl. rewrite He.
  set (nl := accumulate None a 0 (entries e)).
  assert (Hnl : deref st1 <$> nl = Some <$> entries e).
  { rewrite <- (accumulate_all a (entries e) [] (entries e) eq_refl).
    by apply (deref_accumulate st1 None a e). }
  assert (Hsize : vec_size nl = vec_size (entries e)).
  { apply (f_equal length) in Hnl. rewrite !length_fmap in Hnl.
    unfold vec_size. by rewrite Hnl. }
  rewrite (snapshot_of_lookup _ _ _ _ Hc He).
  destruct compare as [cmp|].
  - destruct (vec_size nl =? 0) eqn:Hn.
    + exists nl. rewrite Hsize. split; [done|]. split; [done|].
      split; [by rewrite Hnl|done].
    + exists (qsort (cmp_slots (entries e) cmp) nl). rewrite Hsize.
      split; [done|]. split; [done|].
      split; [by rewrite qsort_Permutation, Hnl|done].
  - exists nl. rewrite Hsize. split; [done|]. split; [done|].
    split; [by rewrite Hnl|done].
Qed.

(** X8.  A call of [dircache_scandir] that stores a list leaves behind one
    more open handle on the snapshot of the path, which it neither closes
    nor returns: the handles of the caller are as they were, and the
    number of handles on the snapshot has grown by one. *)
Theorem scandir_leaves_handle_open w dirp filter compare st n namelist st' :
  dircache_scandir w dirp filter compare st = Some ((n, Some namelist), st') →
  ∃ h a, ctxs st !! h = None ∧
         ctxs st' = <[h := {| pos := 0; ent := a |}]> (ctxs st) ∧
         dir_db st' !! dirp = Some a ∧
         handles_on st' a = S (handles_on st a).
Proof.
  intros Hrun.
  destruct (scandir_state _ _ _ _ _ _ _ Hrun) as (ctx & Hpop).
  assert (∃ h, ctx = Some h) as [h ->].
  { destruct ctx as [h|]; [by exists h|].
    unfold dircache_scandir, bind in Hrun. rewrite Hpop in Hrun.
    by injection Hrun. }
  pose proof (fresh_ctx_unused st) as Hfresh.
  apply find_or_populate_outcome in Hpop.
  inversion Hpop as [a e Hdb He| | |raw st1 Hdb Hlk Hw Hl Hdb' Hlk' He' Hc' Ht'];
    subst.
  - exists (fresh (dom (ctxs st))), a. split; [done|]. simpl.
    split; [done|]. split; [done|].
    unfold handles_on. simpl. rewrite count_on_insert_fresh by done.
    simpl. by rewrite decide_True.
  - exists (fresh (dom (ctxs st))), (fresh (dom (ents st))).
    split; [done|]. split; [done|].
    split; [by rewrite Hdb', lookup_insert_eq|].
    unfold handles_on. rewrite Hc', count_on_insert_fresh by done.
    simpl. by rewrite decide_True.
Qed.

(** X9.  [dircache_opendir] touches the entry of its own path only: the
    entry of every other path is as it was; when the call returns a
    handle, the path is mapped to the snapshot the handle is on, and when
    it returns null the map is unchanged. *)
Theorem opendir_maps_its_path_only w path st r st' :
  dircache_opendir w path st = Some (r, st') →
  (∀ q, q ≠ path → dir_db st' !! q = dir_db st !! q) ∧
  (∀ h, r = Some h →
     ∃ a, dir_db st' !! path = Some a ∧
          ctxs st' !! h = Some {| pos := 0; ent := a |}) ∧
  (r = None → dir_db st' = dir_db st).
Proof.
  intros Hrun. pose proof Hrun as Hout.
  apply find_or_populate_outcome in Hout.
  split; [|split].
  - intros q Hq.
    inversion Hout as [a e Hdb He| | |raw st1 Hdb Hlk Hw Hl Hdb' Hlk' He' Hc' Ht'];
      subst; try done.
    rewrite Hdb'. by rewrite lookup_insert_ne.
  - intros h ->.
    destruct (opendir_success _ _ _ _ _ Hrun) as (a & e & Hdb & _ & Hc).
    by exists a.
  - intros ->. by inversion Hout.
Qed.

(** X10.  A call leaves every open handle other than its own argument
    where it is: same position, same snapshot, same records. *)
Theorem other_handles_undisturbed o st st' h c e :
  exec o st = Some (tt, st') →
  op_handle o ≠ Some h →
  ctxs st !! h = Some c → ents st !! ent c = Some e →
  ctxs st' !! h = Some c ∧
  ∃ e', ents st' !! ent c = Some e' ∧ entries e' = entries e.
Proof.
  intros Hrun Hother Hc He. split.
  - pose proof (fresh_ctx_unused st) as Hfresh.
    assert (Hne : fresh (dom (ctxs st)) ≠ h) by congruence.
    assert (Hpop : ∀ w path r, populate_outcome w path st r st' →
                               ctxs st' !! h = Some c).
    { intros w path r Hout.
      destruct Hout as [a0 e0 Hdb He0|Hdb Hw|Hdb Hw Hl
                        |raw st' Hdb Hlk Hw Hl Hdb' Hlk' He' Hc' Ht'];
        simpl; rewrite ?Hc', ?lookup_insert_ne; done. }
    apply exec_outcome_of in Hrun.
    destruct Hrun; simpl in Hother;
      first [ done
            | by eapply Hpop
            | unfold move_to; simpl; rewrite lookup_insert_ne; congruence
            | simpl; rewrite lookup_delete_ne; congruence ].
  - destruct (evolves_exec o _ _ _ Hrun) as [Hpres _].
    destruct (Hpres _ _ He) as (e' & He' & Hent & _). by exists e'.
Qed.

(** X11.  The population keeps every record the scan yields, the entries
    [.] and [..] included.  After the first [dircache_opendir] of a path
    the reads on the handle return the records scanned, sorted by name,
    as many as there were, and null from then on; [dircache_scandir]
    without a filter returns their number.  For a directory that holds no
    file and is scanned as its two dot entries the snapshot is those two
    entries, [.] first: such a directory is not cached as an empty
    snapshot. *)
Theorem first_open_reads_whole_scan w path st raw :
  dir_db st !! path = None → db_lock st = Unlocked →
  w_opendir w path = true → w_list w path = Some raw →
  vec_size raw <= PTRDIFF_MAX →
  ∃ h st1,
    dircache_opendir w path st = Some (Some h, st1) ∧
    snapshot_of st1 h = Some (qsort by_name raw) ∧
    (∀ k, ∃ st2,
       readdir_n (length raw + k) h st1
         = Some ((Some <$> qsort by_name raw) ++ replicate k None, st2)) ∧
    (∀ w' compare, ∃ namelist st2,
       dircache_scandir w' path None compare st1
         = Some ((vec_size raw, Some namelist), st2)) ∧
    (∀ d1 d2, raw ≡ₚ [d1; d2] → d_name d1 = "." → d_name d2 = ".." →
       qsort by_name raw = [d1; d2]).
Proof.
  intros Hdb Hlk Hw Hl Hmax.
  destruct (find_or_populate_populates w path st raw Hdb Hlk Hw Hl)
    as (st1 & Hrun & Hdb1 & _ & He1 & Hc1 & _).
  set (a := fresh (dom (ents st))) in *.
  set (h := fresh (dom (ctxs st))) in *.
  set (e := {| entries := qsort by_name raw; nref := 1;
               addedat := dc_get_time w |}) in *.
  assert (Hc : ctxs st1 !! h = Some {| pos := 0; ent := a |})
    by (by rewrite Hc1, lookup_insert_eq).
  assert (He : ents st1 !! a = Some e) by (by rewrite He1, lookup_insert_eq).
  assert (Hlen : length (qsort by_name raw) = length raw)
    by apply Permutation_length, qsort_Permutation.
  exists h, st1. split; [done|].
  split; [by rewrite (snapshot_of_lookup _ _ _ _ Hc He)|].
  split; [|split].
  - intros k.
    destruct (readdir_n_result (length raw + k) st1 h _ e Hc He)
      as (st2 & Hread & _).
    exists st2. rewrite Hread. do 2 f_equal. simpl. rewrite <- Hlen.
    apply (read_from_rest (qsort by_name raw) [] k). simpl.
    unfold vec_size in *. lia.
  - intros w' compare.
    assert (Hdba : dir_db st1 !! path = Some a)
      by (by rewrite Hdb1, lookup_insert_eq).
    unfold dircache_scandir, bind at 1.
    rewrite (find_or_populate_hit _ _ _ _ _ Hdba He).
    unfold load_ctx, load_ent, bind, ret. simpl.
    rewrite !lookup_insert_eq. simpl. rewrite lookup_insert_eq. simpl.
    rewrite accumulate_None_size.
    replace (vec_size (qsort by_name raw)) with (vec_size raw)
      by (unfold vec_size; by rewrite Hlen).
    by eexists _, _.
  - intros d1 d2 Hperm Hn1 Hn2.
    pose proof (qsort_sorted by_name raw by_name_consistent) as Hsorted.
    assert (Hq : [d1; d2] ≡ₚ qsort by_name raw).
    { symmetry. etrans; [apply qsort_Permutation|done]. }
    apply Permutation_length_2_inv in Hq as [Heq|Heq]; [done|].
    rewrite Heq in Hsorted.
    apply StronglySorted_inv in Hsorted as [_ Hall].
    apply Forall_inv in Hall. unfold cmp_le, by_name in Hall.
    rewrite Hn1, Hn2 in Hall. vm_compute in Hall. by destruct Hall.
Qed.

Lemma db_injective_populate_outcome w path st r st' :
  populate_outcome w path st r st' →
  consistent st → db_injective st → db_injective st'.
Proof.
  intros Hout Hcons Hinj.
  destruct Hout as [a e Hdb He|Hdb Hw|Hdb Hw Hl
                    |raw st' Hdb Hlk Hw Hl Hdb' Hlk' He' Hc' Ht']; try done.
  intros p q a. rewrite Hdb'. intros Hp Hq.
  pose proof (fresh_ent_unused st) as Hfresh.
  assert (Hold : ∀ x, dir_db st !! x = Some a →
                      a ≠ fresh (dom (ents st))).
  { intros x Hx ->. destruct (cons_db st Hcons x _ Hx). congruence. }
  destruct (decide (path = p)) as [<-|Hnp];
    destruct (decide (path = q)) as [<-|Hnq]; try done.
  - rewrite lookup_insert_eq in Hp. rewrite lookup_insert_ne in Hq by done.
    injection Hp as <-. by destruct (Hold q Hq).
  - rewrite lookup_insert_eq in Hq. rewrite lookup_insert_ne in Hp by done.
    injection Hq as <-. by destruct (Hold p Hp).
  - rewrite lookup_insert_ne in Hp, Hq by done. by eapply Hinj.
Qed.

(** X12.  Starting from a consistent state in which no snapshot is mapped
    under two paths, in particular from the empty cache, no sequence of
    calls ever maps one snapshot under two paths. *)
Theorem paths_never_share_snapshot ops : ∀ st st',
  consistent st → db_injective st → run ops st = Some (tt, st') →
  db_injective st'.
Proof.
  induction ops as [|o ops IH]; intros st st' Hcons Hinj Hrun.
  - by injection Hrun as <-.
  - simpl in Hrun. apply bind_Some in Hrun as ([] & st1 & Ho & Hrest).
    apply exec_outcome_of in Ho.
    apply (IH st1); [by eapply consistent_exec_outcome| |done].
    destruct Ho;
      first [ done | by eapply db_injective_populate_outcome ].
Qed.

End Listing.

(** ** Concrete runs of the further properties *)

Lemma st_tree_consistent : consistent st_tree.
Proof.
  split.
  - intros h c Hc. simpl in Hc. apply lookup_singleton_Some in Hc as [<- <-].
    exists snap_tree. exact st_tree_ent.
  - intros p a Hp. simpl in Hp. apply lookup_singleton_Some in Hp as [<- <-].
    exists snap_tree. exact st_tree_ent.
  - intros a e He. simpl in He. apply lookup_singleton_Some in He as [<- <-].
    vm_compute. reflexivity.
Defined.

(** X1: two opens and one close on the empty cache. *)
Lemma refcount_counts_open_handles_witness :
  ∃ st', run [OpOpendir w_tree "tree"; OpOpendir w_tree' "tree";
              OpClosedir 0%nat] init_State = Some (tt, st') ∧
         consistent st' ∧
         ∀ a e, ents st' !! a = Some e →
           nref e = Z.of_nat (handles_on st' a) mod UINT32_modulus.
Proof.
  eexists.
  assert (H : run [OpOpendir w_tree "tree"; OpOpendir w_tree' "tree";
                   OpClosedir 0%nat] init_State = Some (tt, _))
    by (vm_compute; reflexivity).
  split; [exact H|].
  exact (refcount_counts_open_handles _ init_State _ init_State_consistent H).
Defined.

(** X2: a listing of ["tree"], which [st_tree] has cached. *)
Lemma call_within_cache_defined_witness :
  ∃ st', exec (OpScandir w_tree' "tree" (Some starts_with_a) None) st_tree
           = Some (tt, st') ∧
         consistent st' ∧ db_lock st' = Unlocked.
Proof.
  apply (call_within_cache_defined
           (OpScandir w_tree' "tree" (Some starts_with_a) None) st_tree
           st_tree_consistent eq_refl).
  exists 0%nat. exact st_tree_db.
Defined.

(** X3: a population followed by an invalidation. *)
Lemma run_returns_lock_witness :
  ∃ st', run [OpOpendir w_tree "tree"; OpInvalidate] init_State
           = Some (tt, st') ∧
         db_lock st' = Unlocked ∧
         ∃ t, trace st' = trace init_State ++ t ∧
              forallb write_disciplined t = true.
Proof.
  eexists.
  assert (H : run [OpOpendir w_tree "tree"; OpInvalidate] init_State
              = Some (tt, _)) by (vm_compute; reflexivity).
  split; [exact H|].
  exact (run_returns_lock _ init_State _ eq_refl H).
Defined.

(** X4: rewinding the handle of [st_tree]. *)
Lemma rewinddir_rereads_everything_witness :
  ∃ st1 st2,
    dircache_rewinddir 0%nat st_tree = Some (tt, st1) ∧
    readdir_n 3 0%nat st1
      = Some ([Some ent_a; Some ent_b; Some ent_c], st2) ∧
    dircache_readdir 0%nat st2 = Some (None, st2).
Proof.
  exact (rewinddir_rereads_everything st_tree 0%nat ctx_tree snap_tree
           st_tree_ctx st_tree_ent st_tree_size).
Defined.

(** X5: two reads on the handle of [st_tree]. *)
Lemma telldir_counts_reads_witness :
  ∃ st', readdir_n 2 0%nat st_tree = Some ([Some ent_a; Some ent_b], st') ∧
         dircache_telldir 0%nat st' = Some (2, st').
Proof.
  apply (telldir_counts_reads st_tree 0%nat 0%nat snap_tree 2
           st_tree_ctx st_tree_ent st_tree_size).
  vm_compute. lia.
Defined.

(** X6: the token of the start of [st_tree], restored in the same state. *)
Lemma telldir_seekdir_round_trip_witness :
  ∃ p d st1 st2 st3,
    dircache_telldir 0%nat st_tree = Some (0, st_tree) ∧
    dircache_readdir 0%nat st_tree = Some (Some p, st1) ∧
    deref st1 p = Some d ∧
    dircache_seekdir 0%nat 0 st_tree = Some (tt, st2) ∧
    dircache_readdir 0%nat st2 = Some (Some p, st3) ∧ deref st3 p = Some d.
Proof.
  apply (telldir_seekdir_round_trip st_tree st_tree 0%nat ctx_tree ctx_tree
           snap_tree snap_tree st_tree_ctx st_tree_ent st_tree_size).
  - split; vm_compute; [discriminate|reflexivity].
  - exact st_tree_ctx.
  - reflexivity.
  - exact st_tree_ent.
  - reflexivity.
Defined.

(** X7: the unfiltered listing of ["tree"] in [st_tree]. *)
Lemma scandir_unfiltered_lists_all_witness :
  ∃ h st1 l namelist,
    dircache_opendir w_tree "tree" st_tree = Some (Some h, st1) ∧
    snapshot_of st1 h = Some l ∧
    dircache_scandir w_tree "tree" None None st_tree
      = Some ((vec_size l, Some namelist), st1) ∧
    deref st1 <$> namelist ≡ₚ Some <$> l ∧
    deref st1 <$> namelist = Some <$> l.
Proof.
  eexists _, _.
  assert (H : dircache_opendir w_tree "tree" st_tree = Some (Some _, _))
    by (vm_compute; reflexivity).
  destruct (scandir_unfiltered_lists_all w_tree "tree" None st_tree _ _ H)
    as (l & namelist & Hsnap & Hrun & Hperm & Hsame).
  exists l, namelist. split; [exact H|]. split; [exact Hsnap|].
  split; [exact Hrun|]. split; [exact Hperm|exact (Hsame eq_refl)].
Defined.

(** X8: the handle left behind by a listing of ["tree"]. *)
Lemma scandir_leaves_handle_open_witness :
  ∃ n namelist st' h a,
    dircache_scandir w_tree "tree" None None st_tree
      = Some ((n, Some namelist), st') ∧
    ctxs st_tree !! h = None ∧
    ctxs st' = <[h := {| pos := 0; ent := a |}]> (ctxs st_tree) ∧
    dir_db st' !! "tree" = Some a ∧
    handles_on st' a = S (handles_on st_tree a).
Proof.
  eexists _, _, _.
  assert (H : dircache_scandir w_tree "tree" None None st_tree
              = Some ((_, Some _), _)) by (vm_compute; reflexivity).
  destruct (scandir_leaves_handle_open w_tree "tree" None None st_tree
              _ _ _ H) as (h & a & Hrest).
  exists h, a. split; [exact H|exact Hrest].
Defined.

(** X9: the first open of ["tree"]. *)
Lemma opendir_maps_its_path_only_witness :
  ∃ r st',
    dircache_opendir w_tree "tree" init_State = Some (r, st') ∧
    (∀ q, q ≠ "tree" → dir_db st' !! q = dir_db init_State !! q) ∧
    (∀ h, r = Some h →
       ∃ a, dir_db st' !! "tree" = Some a ∧
            ctxs st' !! h = Some {| pos := 0; ent := a |}) ∧
    (r = None → dir_db st' = dir_db init_State).
Proof.
  eexists _, _.
  assert (H : dircache_opendir w_tree "tree" init_State = Some (_, _))
    by (vm_compute; reflexivity).
  split; [exact H|].
  exact (opendir_maps_its_path_only w_tree "tree" init_State _ _ H).
Defined.

(** X10: a second handle is opened on ["tree"], read and closed; the
    handle of [st_tree] stays where it is. *)
Lemma other_handles_undisturbed_witness :
  ∃ st1 st2 st3,
    exec (OpOpendir w_tree "tree") st_tree = Some (tt, st1) ∧
    exec (OpReaddir 1%nat) st1 = Some (tt, st2) ∧
    exec (OpClosedir 1%nat) st2 = Some (tt, st3) ∧
    ctxs st3 !! 0%nat = Some ctx_tree ∧
    ∃ e', ents st3 !! 0%nat = Some e' ∧ entries e' = [ent_a; ent_b; ent_c].
Proof.
  eexists _, _, _.
  assert (H1 : exec (OpOpendir w_tree "tree") st_tree = Some (tt, _))
    by (vm_compute; reflexivity).
  match type of H1 with
  | _ = Some (_, ?s1) =>
      assert (H2 : exec (OpReaddir 1%nat) s1 = Some (tt, _))
        by (vm_compute; reflexivity)
  end.
  match type of H2 with
  | _ = Some (_, ?s2) =>
      assert (H3 : exec (OpClosedir 1%nat) s2 = Some (tt, _))
        by (vm_compute; reflexivity)
  end.
  split; [exact H1|]. split; [exact H2|]. split; [exact H3|].
  match type of H3 with
  | exec _ ?s2 = _ =>
      apply (other_handles_undisturbed (OpClosedir 1%nat) s2 _ 0%nat ctx_tree
               {| entries := [ent_a; ent_b; ent_c]; nref := 2; addedat := 0 |}
               H3)
  end.
  - discriminate.
  - vm_compute. reflexivity.
  - vm_compute. reflexivity.
Defined.

(** X11: a directory that holds no file, opened on the empty cache: the
    reads return [.] and [..], then null, and the listing counts 2. *)
Lemma first_open_reads_whole_scan_witness :
  ∃ h st1,
    dircache_opendir w_empty "void" init_State = Some (Some h, st1) ∧
    snapshot_of st1 h = Some [ent_dot; ent_dotdot] ∧
    (∃ st2, readdir_n 3 h st1
              = Some ([Some ent_dot; Some ent_dotdot; None], st2)) ∧
    (∃ namelist st2,
       dircache_scandir w_empty "void" None None st1
         = Some ((2, Some namelist), st2)).
Proof.
  destruct (first_open_reads_whole_scan w_empty "void" init_State
              [ent_dotdot; ent_dot] eq_refl eq_refl eq_refl eq_refl)
    as (h & st1 & Hopen & Hsnap & Hread & Hlist & Hdots).
  { vm_compute. discriminate. }
  specialize (Hdots ent_dot ent_dotdot (perm_swap _ _ _) eq_refl eq_refl).
  rewrite Hdots in Hsnap.
  destruct (Hread 1%nat) as [st2 Hread1]. rewrite Hdots in Hread1.
  exists h, st1. split; [exact Hopen|]. split; [exact Hsnap|].
  split; [by exists st2|]. exact (Hlist w_empty None).
Defined.

(** X12: two paths populated on the empty cache. *)
Lemma paths_never_share_snapshot_witness :
  ∃ st', run [OpOpendir w_tree "tree"; OpOpendir w_empty "void"] init_State
           = Some (tt, st') ∧
         db_injective st'.
Proof.
  eexists.
  assert (H : run [OpOpendir w_tree "tree"; OpOpendir w_empty "void"]
                init_State = Some (tt, _)) by (vm_compute; reflexivity).
  split; [exact H|].
  refine (paths_never_share_snapshot _ init_State _ init_State_consistent
            _ H).
  intros p q a Hp. simpl in Hp. by rewrite lookup_empty in Hp.
Defined.

(** * The first variant *)

(** ** Reading from a list of entries *)


Section LegacyCursor.
Context `{L : Libc}.

Lemma legacy_bind_Some {A B : Type} (m : Legacy.M A) (k : A → Legacy.M B)
    st b st' :
  Legacy.bind m k st = Some (b, st') →
  ∃ a st1, m st = Some (a, st1) ∧ k a st1 = Some (b, st').
Proof.
  unfold Legacy.bind. destruct (m st) as [[a st1]|]; [|done]. intros Hk.
  by exists a, st1.
Qed.

(** A read on a context whose list is not empty. *)
Lemma legacy_readdir_cached st h c :
  Legacy.contexts st !! h = Some c → Legacy.m_entries c ≠ [] →
  Legacy.dircache_readdir h st =
    if vec_size (Legacy.m_entries c) <=? Legacy.m_pos c then Some (None, st)
    else Some (Some {| p_ent := h; p_idx := Legacy.m_pos c |},
               Legacy.set_contexts
                 <[h := {| Legacy.m_dir := Legacy.m_dir c;
                           Legacy.m_entries := Legacy.m_entries c;
                           Legacy.m_pos := to_size_t (Legacy.m_pos c + 1) |}]>
                 st).
Proof.
  intros Hc Hne.
  unfold Legacy.dircache_readdir, Legacy.bind at 1, Legacy.load_ctx.
  rewrite Hc. rewrite bool_decide_eq_false_2 by done. simpl.
  unfold Legacy.read_cached, Legacy.bind, Legacy.load_ctx,
    Legacy.store_ctx, Legacy.modify, Legacy.ret.
  rewrite Hc. by destruct (vec_size (Legacy.m_entries c) <=? Legacy.m_pos c).
Qed.

Lemma legacy_readdir_n_cached n : ∀ st h c,
  Legacy.contexts st !! h = Some c → Legacy.m_entries c ≠ [] →
  ∃ st' c',
    Legacy.readdir_n n h st
      = Some (read_from (Legacy.m_entries c) (Legacy.m_pos c) n, st') ∧
    Legacy.contexts st' !! h = Some c' ∧
    Legacy.m_entries c' = Legacy.m_entries c ∧
    Legacy.m_dir c' = Legacy.m_dir c ∧
    Legacy.streams st' = Legacy.streams st ∧
    Legacy.gDirMap st' = Legacy.gDirMap st.
Proof.
  induction n as [|n IH]; intros st h c Hc Hne.
  - by exists st, c.
  - simpl. unfold Legacy.bind at 1.
    rewrite (legacy_readdir_cached _ _ _ Hc Hne).
    rewrite Z.geb_leb.
    destruct (vec_size (Legacy.m_entries c) <=? Legacy.m_pos c) eqn:Hge.
    + destruct (IH st h c Hc Hne) as (st' & c' & Hrun & Hrest).
      exists st', c'. unfold Legacy.bind. by rewrite Hrun.
    + unfold Legacy.bind at 1. simpl. rewrite lookup_insert_eq. simpl.
      destruct (IH (Legacy.set_contexts
                      <[h := {| Legacy.m_dir := Legacy.m_dir c;
                                Legacy.m_entries := Legacy.m_entries c;
                                Legacy.m_pos := to_size_t (Legacy.m_pos c + 1) |}]>
                      st) h _ (lookup_insert_eq _ _ _) Hne)
        as (st' & c' & Hrun & Hrest).
      exists st', c'. unfold Legacy.bind. rewrite Hrun. done.
Qed.

(** The loop drains the stream into the list of the context. *)
Lemma legacy_read_stream (rest : list dirent) :
  ∀ (pre : list dirent) fuel st h d path have mpos,
  Legacy.contexts st !! h
    = Some {| Legacy.m_dir := Some d; Legacy.m_entries := have;
              Legacy.m_pos := mpos |} →
  Legacy.streams st !! d
    = Some {| Legacy.s_path := path; Legacy.s_entries := pre ++ rest;
              Legacy.s_read := length pre |} →
  (length rest < fuel)%nat →
  Legacy.read_stream fuel h st =
    Some (tt, Legacy.set_streams
                <[d := {| Legacy.s_path := path;
                          Legacy.s_entries := pre ++ rest;
                          Legacy.s_read := length (pre ++ rest) |}]>
                (Legacy.set_contexts
                   <[h := {| Legacy.m_dir := Some d;
                             Legacy.m_entries := have ++ rest;
                             Legacy.m_pos := mpos |}]> st)).
Proof.
  induction rest as [|e rest IH]; intros pre fuel st h d path have mpos
    Hc Hs Hfuel; (destruct fuel as [|fuel]; [simpl in Hfuel; lia|]).
  - simpl. unfold Legacy.bind, Legacy.load_ctx, Legacy.readdir. rewrite Hc.
    simpl. rewrite Hs. simpl.
    rewrite lookup_ge_None_2 by (rewrite app_nil_r; lia).
    unfold Legacy.ret. f_equal. f_equal.
    destruct st as [db cs ss]. unfold Legacy.set_streams,
      Legacy.set_contexts. simpl in *. f_equal.
    + symmetry. apply insert_id. by rewrite app_nil_r.
    + symmetry. apply insert_id. by rewrite app_nil_r in *.
  - simpl. unfold Legacy.bind at 1, Legacy.load_ctx. rewrite Hc.
    unfold Legacy.bind at 1, Legacy.readdir. simpl. rewrite Hs. simpl.
    rewrite list_lookup_middle by done.
    unfold Legacy.bind at 1, Legacy.store_ctx, Legacy.modify.
    rewrite (IH (pre ++ [e]) fuel _ h d path (have ++ [e]) mpos).
    + f_equal. f_equal.
      destruct st as [db cs ss]. unfold Legacy.set_streams,
        Legacy.set_contexts. simpl. rewrite !insert_insert_eq.
      by rewrite <- !app_assoc.
    + simpl. by rewrite lookup_insert_eq.
    + simpl. rewrite lookup_insert_eq. rewrite <- app_assoc. simpl.
      do 2 f_equal. rewrite length_app. simpl. lia.
    + simpl in Hfuel. lia.
Qed.

End LegacyCursor.

Section LegacyProperties.
Context `{L : Libc}.

(** X13.  First variant: on a context that has just been opened (empty
    list, position 0, stream at its start) over a directory with entries
    [l], the first read drains the stream into the list, and the reads
    return the entries of [l] in the order of the stream, then null on
    every further call. *)
Theorem legacy_first_read_populates st h d path (l : list dirent) (k : nat) :
  Legacy.contexts st !! h
    = Some {| Legacy.m_dir := Some d; Legacy.m_entries := [];
              Legacy.m_pos := 0 |} →
  Legacy.streams st !! d
    = Some {| Legacy.s_path := path; Legacy.s_entries := l;
              Legacy.s_read := 0 |} →
  l ≠ [] → vec_size l <= PTRDIFF_MAX →
  ∃ st', Legacy.readdir_n (length l + k) h st
           = Some ((Some <$> l) ++ replicate k None, st') ∧
         ∃ c', Legacy.contexts st' !! h = Some c' ∧ Legacy.m_entries c' = l.
Proof.
  intros Hc Hs Hne Hmax.
  destruct l as [|e l]; [done|]. clear Hne.
  set (all := e :: l) in *.
  pose proof (legacy_read_stream all [] (S (length all)) st h d path [] 0
                Hc Hs (Nat.lt_succ_diag_r _)) as Hdrain.
  simpl app in Hdrain.
  set (st1 := Legacy.set_streams _ _) in Hdrain.
  assert (Hc1 : Legacy.contexts st1 !! h
                = Some {| Legacy.m_dir := Some d; Legacy.m_entries := all;
                          Legacy.m_pos := 0 |})
    by (simpl; apply lookup_insert_eq).
  assert (Hfirst : Legacy.dircache_readdir h st
                   = Legacy.dircache_readdir h st1).
  { unfold Legacy.dircache_readdir at 1, Legacy.bind at 1, Legacy.load_ctx.
    rewrite Hc. simpl. unfold Legacy.bind at 1.
    unfold Legacy.stream_fuel. rewrite Hs. simpl Legacy.s_entries.
    simpl Legacy.s_read. rewrite Nat.sub_0_r. rewrite Hdrain.
    unfold Legacy.bind at 1, Legacy.load_ctx. rewrite Hc1. simpl.
    rewrite (legacy_readdir_cached st1 h _ Hc1) by done.
    unfold Legacy.read_cached, Legacy.bind, Legacy.load_ctx,
      Legacy.store_ctx, Legacy.modify, Legacy.ret.
    rewrite Hc1. simpl.
    by destruct (vec_size all <=? 0). }
  assert (Hn : ∀ n, Legacy.readdir_n (S n) h st
                    = Legacy.readdir_n (S n) h st1).
  { intros n. simpl. unfold Legacy.bind at 1 3. by rewrite Hfirst. }
  replace (length all + k)%nat with (S (length l + k)) by (simpl; lia).
  rewrite Hn.
  destruct (legacy_readdir_n_cached (S (length l + k)) st1 h _ Hc1)
    as (st' & c' & Hrun & Hc' & Hent & _); [done|].
  exists st'. split.
  - rewrite Hrun. f_equal. f_equal. simpl Legacy.m_entries. simpl Legacy.m_pos.
    replace (S (length l + k)) with (length all + k)%nat by (simpl; lia).
    apply (read_from_rest all [] k). done.
  - by exists c'.
Qed.


(** X14.  First variant: a read on a context whose list is empty and
    whose stream has nothing left (an empty directory, or a stream read
    to its end) returns null and changes nothing. *)
Theorem legacy_read_of_empty_directory st h c d s :
  Legacy.contexts st !! h = Some c →
  Legacy.m_entries c = [] → Legacy.m_dir c = Some d →
  Legacy.streams st !! d = Some s →
  (length (Legacy.s_entries s) <= Legacy.s_read s)%nat →
  Legacy.dircache_readdir h st = Some (None, st).
Proof.
  intros Hc Hnil Hd Hs Hend.
  unfold Legacy.dircache_readdir, Legacy.bind at 1, Legacy.load_ctx.
  rewrite Hc, Hnil. simpl. unfold Legacy.bind at 1.
  unfold Legacy.stream_fuel. rewrite Hd, Hs.
  replace (length (Legacy.s_entries s) - Legacy.s_read s)%nat with O by lia.
  simpl. unfold Legacy.bind at 1, Legacy.load_ctx. rewrite Hc.
  unfold Legacy.bind at 1, Legacy.readdir. rewrite Hd, Hs.
  rewrite lookup_ge_None_2 by lia. unfold Legacy.ret.
  unfold Legacy.bind, Legacy.load_ctx. rewrite Hc, Hnil. done.
Qed.

(** X15.  First variant: [dircache_opendir] of a mapped path returns the
    context the map holds, not a new one; its entries and its position
    are left as they are.  If the stream of the context is open the call
    changes nothing at all, so two opens of a path share one cursor. *)
Theorem legacy_opendir_shares_context w path st h c :
  Legacy.gDirMap st !! path = Some h →
  Legacy.contexts st !! h = Some c →
  ∃ st' c',
    Legacy.dircache_opendir w path st = Some (Some h, st') ∧
    Legacy.gDirMap st' = Legacy.gDirMap st ∧
    Legacy.contexts st' !! h = Some c' ∧
    Legacy.m_entries c' = Legacy.m_entries c ∧
    Legacy.m_pos c' = Legacy.m_pos c ∧
    (∀ h', h' ≠ h → Legacy.contexts st' !! h' = Legacy.contexts st !! h') ∧
    (is_Some (Legacy.m_dir c) → st' = st).
Proof.
  intros Hdb Hc. unfold Legacy.dircache_opendir. rewrite Hdb.
  unfold Legacy.bind at 1, Legacy.load_ctx. rewrite Hc.
  destruct (Legacy.m_dir c) as [d|] eqn:Hd.
  - exists st, c. by repeat split.
  - unfold Legacy.bind, Legacy.opendir, Legacy.store_ctx, Legacy.modify,
      Legacy.ret.
    destruct (w_opendir w path); simpl.
    + eexists _, _. split; [done|]. simpl. rewrite lookup_insert_eq.
      repeat split;
        first [ done
              | by intros h' Hne; rewrite lookup_insert_ne
              | by intros [? ?] ].
    + eexists _, _. split; [done|]. simpl. rewrite lookup_insert_eq.
      repeat split;
        first [ done
              | by intros h' Hne; rewrite lookup_insert_ne
              | by intros [? ?] ].
Qed.

(** X16.  First variant: [dircache_closedir] closes the stream and keeps
    the list; on a context whose list is filled, reads after the close
    return what they would have returned without it. *)
Theorem legacy_closedir_keeps_entries st h c d :
  Legacy.contexts st !! h = Some c →
  Legacy.m_entries c ≠ [] → Legacy.m_dir c = Some d →
  is_Some (Legacy.streams st !! d) →
  ∃ st1,
    Legacy.dircache_closedir h st = Some (tt, st1) ∧
    Legacy.streams st1 !! d = None ∧
    ∀ n, ∃ l s s', Legacy.readdir_n n h st1 = Some (l, s) ∧
                   Legacy.readdir_n n h st = Some (l, s').
Proof.
  intros Hc Hne Hd [s Hs].
  unfold Legacy.dircache_closedir, Legacy.bind, Legacy.load_ctx,
    Legacy.closedir, Legacy.store_ctx, Legacy.modify.
  rewrite Hc, Hd, Hs.
  set (st1 := Legacy.set_contexts _ _).
  exists st1. split; [done|].
  split; [apply lookup_delete_eq|].
  intros n.
  destruct (legacy_readdir_n_cached n st h c Hc Hne) as (s2 & c2 & H2 & _).
  destruct (legacy_readdir_n_cached n st1 h
              {| Legacy.m_dir := None; Legacy.m_entries := Legacy.m_entries c;
                 Legacy.m_pos := Legacy.m_pos c |})
    as (s1 & c1 & H1 & _); [apply lookup_insert_eq|exact Hne|].
  eexists _, s1, s2. split; [exact H1|exact H2].
Qed.


Lemma legacy_invalidate_one st h c :
  Legacy.contexts st !! h = Some c →
  (∀ d, Legacy.m_dir c = Some d → is_Some (Legacy.streams st !! d)) →
  Legacy.invalidate_one h st =
    Some (tt, Legacy.set_contexts (delete h)
                (Legacy.set_streams
                   (match Legacy.m_dir c with
                    | Some d => delete d
                    | None => λ ss, ss
                    end) st)).
Proof.
  intros Hc Hopen.
  unfold Legacy.invalidate_one, Legacy.bind at 1, Legacy.load_ctx.
  rewrite Hc. destruct (Legacy.m_dir c) as [d|] eqn:Hd.
  - destruct (Hopen d eq_refl) as [s Hs].
    unfold Legacy.bind, Legacy.closedir, Legacy.store_ctx, Legacy.modify,
      Legacy.delete_ctx.
    rewrite Hs. simpl. rewrite lookup_insert_eq. f_equal. f_equal.
    destruct st as [db cs ss]. unfold Legacy.set_contexts,
      Legacy.set_streams. simpl. f_equal. apply delete_insert_eq.
  - unfold Legacy.bind, Legacy.ret, Legacy.delete_ctx. rewrite Hc.
    by destruct st.
Qed.

Lemma legacy_invalidate_each (hs : list addr) : ∀ st,
  Legacy.teardown_ok st hs →
  ∃ st', Legacy.invalidate_each hs st = Some (tt, st') ∧
    Legacy.gDirMap st' = Legacy.gDirMap st ∧
    (∀ h, h ∈ hs → Legacy.contexts st' !! h = None) ∧
    (∀ h c d, h ∈ hs → Legacy.contexts st !! h = Some c →
       Legacy.m_dir c = Some d → Legacy.streams st' !! d = None).
Proof.
  induction hs as [|h hs IH]; intros st (Hnd & Halloc & Hdist).
  - exists st. split; [done|]. split; [done|].
    split; intros; by apply elem_of_nil in H.
  - apply NoDup_cons in Hnd as [Hnotin Hnd].
    destruct (Halloc h) as (c & Hc & Hopen); [by left|].
    simpl. unfold Legacy.bind.
    rewrite (legacy_invalidate_one st h c Hc Hopen).
    set (st1 := Legacy.set_contexts _ _).
    assert (Hkeep : ∀ h', h' ∈ hs →
              Legacy.contexts st1 !! h' = Legacy.contexts st !! h').
    { intros h' Hin. simpl. apply lookup_delete_ne. by intros ->. }
    assert (Hstream : ∀ h' c' d', h' ∈ hs →
              Legacy.contexts st !! h' = Some c' →
              Legacy.m_dir c' = Some d' →
              Legacy.streams st1 !! d' = Legacy.streams st !! d').
    { intros h' c' d' Hin Hc' Hd'. simpl.
      destruct (Legacy.m_dir c) as [d|] eqn:Hd; [|done].
      apply lookup_delete_ne. intros ->.
      assert (h = h') as <-; [|done].
      eapply (Hdist h h' c c' d'); try done; [by left|by right]. }
    destruct (IH st1) as (st' & Hrun & Hdb & Hgone & Hclosed).
    { split; [done|]. split.
      - intros h' Hin. destruct (Halloc h') as (c' & Hc' & Hopen');
          [by right|].
        exists c'. rewrite (Hkeep h' Hin). split; [done|].
        intros d' Hd'. rewrite (Hstream h' c' d' Hin Hc' Hd'). by apply Hopen'.
      - intros h1 h2 c1 c2 d0 H1 H2. rewrite (Hkeep h1 H1), (Hkeep h2 H2).
        intros Hc1 Hc2. apply (Hdist h1 h2 c1 c2 d0); by try right. }
    exists st'. split; [done|]. split; [done|]. split.
    + intros h' Hin. apply elem_of_cons in Hin as [->|Hin]; [|by apply Hgone].
      assert (Hmono : ∀ hs' s s', Legacy.invalidate_each hs' s = Some (tt, s') →
                ∀ x, Legacy.contexts s !! x = None →
                     Legacy.contexts s' !! x = None).
      { clear. induction hs' as [|y hs' IHl]; intros s s' Hr x Hx.
        - by injection Hr as <-.
        - simpl in Hr. apply legacy_bind_Some in Hr as ([] & s1 & H1 & H2).
          apply (IHl s1 s' H2).
          unfold Legacy.invalidate_one in H1.
          apply legacy_bind_Some in H1 as (c & s2 & Hl & H1).
          unfold Legacy.load_ctx in Hl.
          destruct (Legacy.contexts s !! y) as [cy|] eqn:Hy; [|done].
          injection Hl as <- <-.
          apply legacy_bind_Some in H1 as ([] & s3 & Hm & Hdel).
          assert (Hs3 : ∀ z, z ≠ y → Legacy.contexts s3 !! z
                                     = Legacy.contexts s !! z).
          { intros z Hz. destruct (Legacy.m_dir cy) as [dy|].
            - apply legacy_bind_Some in Hm as ([] & s4 & Hcl & Hst).
              unfold Legacy.closedir in Hcl.
              destruct (Legacy.streams s !! dy); [|done].
              injection Hcl as <-. injection Hst as <-. simpl.
              by rewrite lookup_insert_ne.
            - by injection Hm as <-. }
          unfold Legacy.delete_ctx in Hdel.
          destruct (Legacy.contexts s3 !! y); [|done].
          injection Hdel as <-. simpl.
          destruct (decide (x = y)) as [->|Hxy];
            [apply lookup_delete_eq|].
          rewrite lookup_delete_ne by done. by rewrite Hs3. }
      apply (Hmono hs st1 st' Hrun). simpl. apply lookup_delete_eq.
    + intros h' c' d' Hin Hc' Hd'.
      apply elem_of_cons in Hin as [->|Hin].
      * assert (c' = c) as -> by congruence.
        assert (Hsm : ∀ hs' s s', Legacy.invalidate_each hs' s = Some (tt, s') →
                  ∀ x, Legacy.streams s !! x = None →
                       Legacy.streams s' !! x = None).
        { clear. induction hs' as [|y hs' IHl]; intros s s' Hr x Hx.
          - by injection Hr as <-.
          - simpl in Hr. apply legacy_bind_Some in Hr as ([] & s1 & H1 & H2).
            apply (IHl s1 s' H2).
            unfold Legacy.invalidate_one in H1.
            apply legacy_bind_Some in H1 as (c & s2 & Hl & H1).
            unfold Legacy.load_ctx in Hl.
            destruct (Legacy.contexts s !! y) as [cy|] eqn:Hy; [|done].
            injection Hl as <- <-.
            apply legacy_bind_Some in H1 as ([] & s3 & Hm & Hdel).
            assert (Hs3 : Legacy.streams s3 !! x = None).
            { destruct (Legacy.m_dir cy) as [dy|].
              - apply legacy_bind_Some in Hm as ([] & s4 & Hcl & Hst).
                unfold Legacy.closedir in Hcl.
                destruct (Legacy.streams s !! dy); [|done].
                injection Hcl as <-. injection Hst as <-. simpl.
                destruct (decide (x = dy)) as [->|Hne];
                  [apply lookup_delete_eq|by rewrite lookup_delete_ne].
              - by injection Hm as <-. }
            unfold Legacy.delete_ctx in Hdel.
            destruct (Legacy.contexts s3 !! y); [|done].
            by injection Hdel as <-. }
        apply (Hsm hs st1 st' Hrun). simpl. rewrite Hd'.
        apply lookup_delete_eq.
      * apply (Hclosed h' c' d' Hin); [|done]. by rewrite (Hkeep h' Hin).
Qed.

(** X17.  First variant: [dircache_invalidate] frees every context of the
    map and closes its stream before it empties the map.  A pointer that
    [dircache_opendir] returned earlier dangles afterwards: the next read
    through it is undefined. *)
Theorem legacy_invalidate_frees_contexts st :
  Legacy.teardown_ok st (map_to_list (Legacy.gDirMap st)).*2 →
  ∃ st', Legacy.dircache_invalidate st = Some (tt, st') ∧
    Legacy.gDirMap st' = ∅ ∧
    ∀ p h, Legacy.gDirMap st !! p = Some h →
      Legacy.contexts st' !! h = None ∧
      Legacy.dircache_readdir h st' = None ∧
      ∀ c d, Legacy.contexts st !! h = Some c → Legacy.m_dir c = Some d →
             Legacy.streams st' !! d = None.
Proof.
  intros Hok.
  destruct (legacy_invalidate_each _ st Hok)
    as (st1 & Hrun & Hdb & Hgone & Hclosed).
  unfold Legacy.dircache_invalidate, Legacy.bind. rewrite Hrun.
  eexists. split; [done|]. split; [done|].
  intros p h Hp.
  assert (Hin : h ∈ (map_to_list (Legacy.gDirMap st)).*2).
  { apply list_elem_of_fmap. exists (p, h). split; [done|].
    by apply elem_of_map_to_list. }
  simpl. split; [by apply Hgone|]. split.
  - unfold Legacy.dircache_readdir, Legacy.bind, Legacy.load_ctx. simpl.
    by rewrite (Hgone h Hin).
  - intros c d Hc Hd. by apply (Hclosed h c d Hin).
Qed.


Lemma legacy_accumulate_deref filter h (l : list dirent) : ∀ pre all,
  all = pre ++ l →
  deref_in all <$> Legacy.accumulate filter h (vec_size pre) l
    = Some <$> base.filter (accepted_by filter) l.
Proof.
  induction l as [|d l IH]; intros pre all Hall; [done|].
  assert (Hnext : vec_size pre + 1 = vec_size (pre ++ [d])).
  { unfold vec_size. rewrite length_app. simpl. lia. }
  assert (Hhead : deref_in all {| p_ent := h; p_idx := vec_size pre |}
                  = Some d).
  { unfold deref_in. simpl. pose proof (vec_size_nonneg pre).
    destruct (vec_size pre <? 0) eqn:Hneg; [lia|].
    rewrite Hall. unfold vec_size. rewrite Nat2Z.id.
    by rewrite list_lookup_middle. }
  assert (Htail : deref_in all <$> Legacy.accumulate filter h (vec_size pre + 1) l
                  = Some <$> base.filter (accepted_by filter) l).
  { rewrite Hnext. apply IH. by rewrite <- app_assoc. }
  destruct filter as [f|]; cbn [Legacy.accumulate].
  - destruct (Z.eqb_spec (f d) 0) as [Hz|Hnz].
    + rewrite filter_cons_False by (intros Hf; by apply Hf). exact Htail.
    + rewrite filter_cons_True by done. rewrite !fmap_cons.
      by rewrite Hhead, Htail.
  - rewrite filter_cons_True by done. rewrite !fmap_cons.
    by rewrite Hhead, Htail.
Qed.

Lemma legacy_accumulate_ent filter h (l : list dirent) : ∀ i p,
  p ∈ Legacy.accumulate filter h i l → p_ent p = h.
Proof.
  induction l as [|d l IH]; intros i p Hp; simpl in Hp.
  - by apply elem_of_nil in Hp.
  - destruct (match filter with Some f => f d =? 0 | None => false end).
    + by apply IH in Hp.
    + apply elem_of_cons in Hp as [->|Hp]; [done|by apply IH in Hp].
Qed.

Lemma legacy_listed_cached st h c filter :
  Legacy.contexts st !! h = Some c →
  Legacy.listed st
    (Legacy.Cached (Legacy.accumulate filter h 0 (Legacy.m_entries c)))
    = Some <$> base.filter (accepted_by filter) (Legacy.m_entries c).
Proof.
  intros Hc.
  rewrite <- (legacy_accumulate_deref filter h (Legacy.m_entries c) []
                (Legacy.m_entries c) eq_refl).
  simpl. apply list_fmap_ext. intros i p Hp.
  apply list_elem_of_lookup_2, legacy_accumulate_ent in Hp.
  by rewrite Hp, Hc.
Qed.

(** X18.  First variant: on a mapped path whose context has entries,
    [dircache_scandir] answers from the list of the context and changes
    nothing; the records it lists are exactly those on which the filter
    returns non-zero (all of them without a filter), in the order of the
    list when there is no comparator. *)
Theorem legacy_scandir_cached_filter w dirp filter compare st h c :
  Legacy.gDirMap st !! dirp = Some h →
  Legacy.contexts st !! h = Some c → Legacy.m_entries c ≠ [] →
  ∃ found,
    Legacy.dircache_scandir w dirp filter compare st
      = Some ((vec_size (Legacy.accumulate filter h 0 (Legacy.m_entries c)),
               Some (Legacy.Cached found)), st) ∧
    Legacy.listed st (Legacy.Cached found)
      ≡ₚ Some <$> base.filter (accepted_by filter) (Legacy.m_entries c) ∧
    length found
      = length (base.filter (accepted_by filter) (Legacy.m_entries c)) ∧
    (compare = None →
     Legacy.listed st (Legacy.Cached found)
       = Some <$> base.filter (accepted_by filter) (Legacy.m_entries c)).
Proof.
  intros Hdb Hc Hne.
  unfold Legacy.dircache_scandir. rewrite Hdb.
  unfold Legacy.bind, Legacy.load_ctx, Legacy.ret. rewrite Hc.
  rewrite bool_decide_eq_false_2 by done. simpl negb. cbv iota.
  pose proof (legacy_listed_cached st h c filter Hc) as Hl.
  set (found := Legacy.accumulate filter h 0 (Legacy.m_entries c)) in *.
  assert (Hlen : length found
                 = length (base.filter (accepted_by filter) (Legacy.m_entries c))).
  { apply (f_equal length) in Hl. simpl in Hl.
    by rewrite !length_fmap in Hl. }
  destruct compare as [cmp|].
  - exists (qsort (cmp_slots (Legacy.m_entries c) cmp) found).
    pose proof (qsort_Permutation (cmp_slots (Legacy.m_entries c) cmp) found)
      as Hp.
    split; [done|]. split; [|split; [|done]].
    + rewrite <- Hl. simpl. by rewrite Hp.
    + by rewrite (Permutation_length Hp).
  - exists found. split; [done|]. split; [by rewrite Hl|]. split; done.
Qed.



End LegacyProperties.

(** ** Concrete runs of the first variant *)

(** X13: the three entries of ["tree"], in stream order, then null. *)
Lemma legacy_first_read_populates_witness :
  ∃ st', Legacy.readdir_n 5 0%nat legacy_st_tree
           = Some ([Some ent_b; Some ent_a; Some ent_c; None; None], st') ∧
         ∃ c', Legacy.contexts st' !! 0%nat = Some c' ∧
               Legacy.m_entries c' = [ent_b; ent_a; ent_c].
Proof.
  apply (legacy_first_read_populates legacy_st_tree 0%nat 0%nat "tree"
           [ent_b; ent_a; ent_c] 2).
  - vm_compute. reflexivity.
  - vm_compute. reflexivity.
  - discriminate.
  - vm_compute. discriminate.
Defined.

(** X14: a read on the empty directory. *)
Lemma legacy_read_of_empty_directory_witness :
  Legacy.dircache_readdir 0%nat legacy_st_void = Some (None, legacy_st_void).
Proof.
  apply (legacy_read_of_empty_directory legacy_st_void 0%nat
           {| Legacy.m_dir := Some 0%nat; Legacy.m_entries := [];
              Legacy.m_pos := 0 |} 0%nat
           {| Legacy.s_path := "void"; Legacy.s_entries := [];
              Legacy.s_read := 0 |}).
  - vm_compute. reflexivity.
  - reflexivity.
  - reflexivity.
  - vm_compute. reflexivity.
  - simpl. lia.
Defined.

(** X15: a second open of ["tree"]. *)
Lemma legacy_opendir_shares_context_witness :
  ∃ st' c',
    Legacy.dircache_opendir w_tree' "tree" legacy_st_cached
      = Some (Some 0%nat, st') ∧
    Legacy.gDirMap st' = Legacy.gDirMap legacy_st_cached ∧
    Legacy.contexts st' !! 0%nat = Some c' ∧
    Legacy.m_entries c' = [ent_b; ent_a; ent_c] ∧
    Legacy.m_pos c' = 1 ∧
    (∀ h', h' ≠ 0%nat →
       Legacy.contexts st' !! h' = Legacy.contexts legacy_st_cached !! h') ∧
    (is_Some (Legacy.m_dir legacy_ctx_cached) → st' = legacy_st_cached).
Proof.
  apply (legacy_opendir_shares_context w_tree' "tree" legacy_st_cached
           0%nat legacy_ctx_cached).
  - vm_compute. reflexivity.
  - vm_compute. reflexivity.
Defined.

(** X16: closing the context of ["tree"] after its entries were read. *)
Lemma legacy_closedir_keeps_entries_witness :
  ∃ st1,
    Legacy.dircache_closedir 0%nat legacy_st_cached = Some (tt, st1) ∧
    Legacy.streams st1 !! 0%nat = None ∧
    ∀ n, ∃ l s s', Legacy.readdir_n n 0%nat st1 = Some (l, s) ∧
                   Legacy.readdir_n n 0%nat legacy_st_cached = Some (l, s').
Proof.
  apply (legacy_closedir_keeps_entries legacy_st_cached 0%nat
           legacy_ctx_cached 0%nat).
  - vm_compute. reflexivity.
  - discriminate.
  - reflexivity.
  - eexists. vm_compute. reflexivity.
Defined.

(** X17: invalidating the cache that holds ["tree"]. *)
Lemma legacy_invalidate_frees_contexts_witness :
  ∃ st', Legacy.dircache_invalidate legacy_st_cached = Some (tt, st') ∧
    Legacy.gDirMap st' = ∅ ∧
    ∀ p h, Legacy.gDirMap legacy_st_cached !! p = Some h →
      Legacy.contexts st' !! h = None ∧
      Legacy.dircache_readdir h st' = None ∧
      ∀ c d, Legacy.contexts legacy_st_cached !! h = Some c →
             Legacy.m_dir c = Some d → Legacy.streams st' !! d = None.
Proof.
  apply (legacy_invalidate_frees_contexts legacy_st_cached).
  simpl Legacy.gDirMap. rewrite map_to_list_singleton. simpl.
  split; [apply NoDup_singleton|]. split.
  - intros h Hh. apply list_elem_of_singleton in Hh as ->.
    exists legacy_ctx_cached. split; [vm_compute; reflexivity|].
    intros d [= <-]. eexists. vm_compute. reflexivity.
  - intros h1 h2 c1 c2 d H1 H2 _ _ _ _.
    apply list_elem_of_singleton in H1, H2. congruence.
Defined.

(** X18: the cached listing of ["tree"] with the filter "starts with [a]". *)
Lemma legacy_scandir_cached_filter_witness :
  ∃ found,
    Legacy.dircache_scandir w_tree "tree" (Some starts_with_a) None
      legacy_st_cached
      = Some ((1, Some (Legacy.Cached found)), legacy_st_cached) ∧
    Legacy.listed legacy_st_cached (Legacy.Cached found) = [Some ent_a].
Proof.
  destruct (legacy_scandir_cached_filter w_tree "tree" (Some starts_with_a)
              None legacy_st_cached 0%nat legacy_ctx_cached)
    as (found & Hrun & _ & _ & Hsame).
  - vm_compute. reflexivity.
  - vm_compute. reflexivity.
  - discriminate.
  - exists found. split; [exact Hrun|exact (Hsame eq_refl)].
Defined.


(** ** A listing does not decide what is cached, and the demonstration
    program *)

Section Harness.
Context `{L : Libc}.

(** X20.  When [dircache_scandir] populates a path, the snapshot it
    installs holds every entry of the directory, in name order, whatever
    filter and comparator the call was given: the filter shapes the list
    that is returned, not what later calls find in the cache. *)
Theorem scandir_populates_full_snapshot w dirp filter compare st raw :
  dir_db st !! dirp = None → db_lock st = Unlocked →
  w_opendir w dirp = true → w_list w dirp = Some raw →
  ∃ r st' a e,
    dircache_scandir w dirp filter compare st = Some (r, st') ∧
    dir_db st' !! dirp = Some a ∧ ents st' !! a = Some e ∧
    entries e = qsort by_name raw ∧ entries e ≡ₚ raw.
Proof.
  intros Hdb Hlk Hw Hl.
  destruct (find_or_populate_populates w dirp st raw Hdb Hlk Hw Hl)
    as (st' & Hrun & Hdb' & _ & He' & Hc' & _).
  unfold dircache_scandir, bind at 1. rewrite Hrun.
  unfold load_ctx, load_ent, bind, ret.
  rewrite Hc', lookup_insert_eq. simpl. rewrite He', lookup_insert_eq.
  eexists _, st', _, _. split; [done|].
  rewrite Hdb', He', !lookup_insert_eq. split; [done|]. split; [done|].
  simpl. split; [done|apply qsort_Permutation].
Qed.

(** The reading loop, started at position [|l1|] of a snapshot
    [l1 ++ l2] with enough fuel, reads the [|l2|] records that are left
    and stops at the end. *)
Lemma read_until_null_rest (l2 : list dirent) :
  ∀ (l1 : list dirent) fuel st h a e,
  entries e = l1 ++ l2 →
  ctxs st !! h = Some {| pos := vec_size l1; ent := a |} →
  ents st !! a = Some e →
  vec_size (entries e) <= PTRDIFF_MAX →
  (length l2 < fuel)%nat →
  read_until_null fuel h st
    = Some (length l2,
            set_ctxs <[h := {| pos := vec_size (entries e); ent := a |}]> st).
Proof.
  induction l2 as [|d l2 IH]; intros l1 fuel st h a e Hl Hc He Hmax Hfuel;
    (destruct fuel as [|fuel]; [simpl in Hfuel; lia|]).
  - rewrite app_nil_r in Hl. simpl. unfold bind.
    rewrite (readdir_spec _ _ _ _ Hc He). simpl. rewrite Hl.
    destruct (vec_size l1 >=? vec_size l1) eqn:Hge.
    + unfold ret. do 2 f_equal. destruct st. unfold set_ctxs. simpl in *.
      f_equal. symmetry. by apply insert_id.
    + rewrite Z.geb_leb in Hge. apply Z.leb_gt in Hge. lia.
  - assert (Hlen : vec_size (entries e) = vec_size l1 + 1 + vec_size l2).
    { rewrite Hl. unfold vec_size. rewrite length_app. simpl. lia. }
    pose proof (vec_size_nonneg l1). pose proof (vec_size_nonneg l2).
    simpl. unfold bind at 1.
    rewrite (readdir_spec _ _ _ _ Hc He). simpl.
    destruct (vec_size l1 >=? vec_size (entries e)) eqn:Hge.
    { rewrite Z.geb_leb in Hge. apply Z.leb_le in Hge. lia. }
    rewrite to_size_t_small by (unfold SIZE_MAX_plus_1, PTRDIFF_MAX in *; lia).
    unfold bind.
    rewrite (IH (l1 ++ [d]) fuel _ h a e).
    + unfold ret. do 2 f_equal. destruct st. unfold set_ctxs. simpl.
      by rewrite insert_insert_eq.
    + by rewrite <- app_assoc.
    + simpl. rewrite lookup_insert_eq. do 2 f_equal.
      unfold vec_size. rewrite length_app. simpl. lia.
    + done.
    + done.
    + simpl in Hfuel. lia.
Qed.

Lemma read_loop_from_start st h a e :
  ctxs st !! h = Some {| pos := 0; ent := a |} →
  ents st !! a = Some e →
  vec_size (entries e) <= PTRDIFF_MAX →
  read_loop h st
    = Some (length (entries e),
            set_ctxs <[h := {| pos := vec_size (entries e); ent := a |}]> st).
Proof.
  intros Hc He Hmax. unfold read_loop, records_left. rewrite Hc. simpl.
  rewrite He.
  apply (read_until_null_rest (entries e) [] _ st h a e); try done.
  unfold vec_size. lia.
Qed.



(** An unfiltered, unsorted listing returns the number of records of the
    snapshot that [dc_find_or_populate] hands out. *)
Lemma scandir_plain_count w dirp st h st1 a e :
  dc_find_or_populate w dirp st = Some (Some h, st1) →
  ctxs st1 !! h = Some {| pos := 0; ent := a |} →
  ents st1 !! a = Some e →
  ∃ namelist,
    dircache_scandir w dirp None None st
      = Some ((vec_size (entries e), Some namelist), st1).
Proof.
  intros Hrun Hc He. unfold dircache_scandir, bind at 1. rewrite Hrun.
  unfold load_ctx, load_ent, bind, ret. rewrite Hc. simpl. rewrite He.
  eexists. by rewrite accumulate_None_size.
Qed.

(** X21.  The demonstration program, started on the empty cache: if
    ["tree"] can be opened and scanned, the assertion holds and the
    program returns; its two reading loops read the same number of
    records, which is the number of entries of the directory and the
    value of the first [dircache_scandir]; the [dircache_scandir] after
    the invalidation reports the directory as it is then, or [-1] if it
    can no longer be scanned.  If ["tree"] cannot be opened, the
    assertion fails. *)
Theorem main_reads_the_same_twice w w' :
  (w_opendir w "tree" = false ∨ w_list w "tree" = None →
     ∃ st', main w w' init_State = Some (None, st')) ∧
  (∀ raw,
     w_opendir w "tree" = true → w_list w "tree" = Some raw →
     vec_size raw <= PTRDIFF_MAX →
     ∃ o st',
       main w w' init_State = Some (Some o, st') ∧
       first_pass o = length raw ∧ second_pass o = length raw ∧
       cached_scandir o = vec_size raw ∧
       uncached_scandir o
         = match w_opendir w' "tree", w_list w' "tree" with
           | true, Some raw' => vec_size raw'
           | _, _ => -1
           end).
Proof.
  split.
  - intros Hfail. unfold main, bind, dircache_opendir.
    destruct (w_opendir w "tree") eqn:Hw.
    + destruct Hfail as [|Hl]; [done|].
      rewrite (find_or_populate_scandir_fails w "tree" init_State
                 eq_refl Hw Hl).
      by eexists.
    + rewrite (find_or_populate_opendir_fails w "tree" init_State eq_refl Hw).
      by eexists.
  - intros raw Hw Hl Hmax. destruct (find_or_populate_populates w "tree" init_State raw
                eq_refl eq_refl Hw Hl)
      as (st1 & Hrun1 & Hdb1 & Hlk1 & He1 & Hc1 & _).
    set (h := fresh (dom (ctxs init_State))) in *.
    set (a := fresh (dom (ents init_State))) in *.
    set (e := {| entries := qsort by_name raw; nref := 1;
                 addedat := dc_get_time w |}) in *.
    assert (Hsize : vec_size (entries e) = vec_size raw).
    { unfold vec_size. simpl.
      by rewrite (Permutation_length (qsort_Permutation by_name raw)). }
    assert (Hlen : length (entries e) = length raw).
    { unfold vec_size in Hsize. lia. }
    assert (Hc : ctxs st1 !! h = Some {| pos := 0; ent := a |})
      by (by rewrite Hc1, lookup_insert_eq).
    assert (He : ents st1 !! a = Some e) by (by rewrite He1, lookup_insert_eq).
    unfold main. unfold bind at 1. unfold dircache_opendir. rewrite Hrun1.
    (* first pass *)
    unfold bind at 1.
    rewrite (read_loop_from_start st1 h a e Hc He) by (by rewrite Hsize).
    set (st2 := set_ctxs _ st1).
    (* rewind *)
    unfold bind at 1.
    rewrite (rewinddir_spec st2 h {| pos := vec_size (entries e); ent := a |})
      by (simpl; apply lookup_insert_eq).
    simpl ent. set (st3 := set_ctxs _ st2).
    (* second pass *)
    unfold bind at 1.
    rewrite (read_loop_from_start st3 h a e)
      by (first [ by rewrite Hsize | simpl; apply lookup_insert_eq | done ]).
    set (st4 := set_ctxs _ st3).
    (* the listing from the cache *)
    assert (Hdb4 : dir_db st4 !! "tree" = Some a)
      by (simpl; by rewrite Hdb1, lookup_insert_eq).
    assert (He4 : ents st4 !! a = Some e) by done.
    pose proof (find_or_populate_hit w "tree" st4 a e Hdb4 He4) as Hhit.
    set (st5 := set_ents _ _) in Hhit.
    destruct (scandir_plain_count w "tree" st4 _ st5 a (bump e) Hhit)
      as (nl1 & Hscan1).
    { simpl. apply lookup_insert_eq. }
    { simpl. apply lookup_insert_eq. }
    unfold bind at 1. rewrite Hscan1.
    (* invalidation *)
    unfold bind at 1.
    rewrite (invalidate_spec st5) by (simpl; done).
    set (st6 := set_db_lock Unlocked _).
    assert (Hdb6 : dir_db st6 !! "tree" = None) by apply lookup_empty.
    (* the listing after the invalidation *)
    unfold bind at 1.
    destruct (w_opendir w' "tree") eqn:Hw'.
    + destruct (w_list w' "tree") as [raw'|] eqn:Hl'.
      * destruct (find_or_populate_populates w' "tree" st6 raw'
                    Hdb6 eq_refl Hw' Hl')
          as (st7 & Hrun7 & _ & _ & He7 & Hc7 & _).
        destruct (scandir_plain_count w' "tree" st6 _ st7
                    (fresh (dom (ents st6)))
                    {| entries := qsort by_name raw'; nref := 1;
                       addedat := dc_get_time w' |} Hrun7)
          as (nl2 & Hscan2);
          [rewrite Hc7; apply lookup_insert_eq
          |rewrite He7; apply lookup_insert_eq|].
        rewrite Hscan2. unfold ret. eexists _, _. split; [done|]. simpl.
        repeat split; try done.
        unfold vec_size.
        by rewrite (Permutation_length (qsort_Permutation by_name raw')).
      * unfold dircache_scandir, bind.
        rewrite (find_or_populate_scandir_fails w' "tree" st6 Hdb6 Hw' Hl').
        unfold ret. eexists _, _. split; [done|]. by repeat split.
    + unfold dircache_scandir, bind.
      rewrite (find_or_populate_opendir_fails w' "tree" st6 Hdb6 Hw').
      unfold ret. eexists _, _. split; [done|]. by repeat split.
Qed.

End Harness.

(** ** Concrete runs of the listing and of the demonstration program *)

(** X20: ["tree"] populated by a listing with the filter "starts with
    [a]". *)
Lemma scandir_populates_full_snapshot_witness :
  ∃ r st' a e,
    dircache_scandir w_tree "tree" (Some starts_with_a) None init_State
      = Some (r, st') ∧
    dir_db st' !! "tree" = Some a ∧ ents st' !! a = Some e ∧
    entries e = qsort by_name [ent_b; ent_a; ent_c] ∧
    entries e ≡ₚ [ent_b; ent_a; ent_c].
Proof.
  exact (scandir_populates_full_snapshot w_tree "tree" (Some starts_with_a)
           None init_State [ent_b; ent_a; ent_c]
           eq_refl eq_refl eq_refl eq_refl).
Defined.

(** X21: the program on the directory ["tree"] with three entries. *)
Lemma main_reads_the_same_twice_witness :
  ∃ o st',
    main w_tree w_tree' init_State = Some (Some o, st') ∧
    first_pass o = 3%nat ∧ second_pass o = 3%nat ∧
    cached_scandir o = 3 ∧ uncached_scandir o = 3.
Proof.
  apply (proj2 (main_reads_the_same_twice w_tree w_tree')
           [ent_b; ent_a; ent_c]).
  - reflexivity.
  - reflexivity.
  - vm_compute. discriminate.
Defined.
